(** * Gogetopt: option registry and argument scanner

    A shallow embedding of [getopt.go] (package [gogetopt]) and the
    verification of its registry and scanning behaviour.

    Go strings are byte sequences: they are modelled by [string] (a list of
    8-bit [ascii]).  Go maps keyed by strings are [gmap string _].  The
    package-level variables form the record [state]; every function that
    reads or writes them takes and returns a [state]. *)

From Stdlib Require Import Ascii String NArith.
From stdpp Require Import gmap strings list fin_maps.

Open Scope string_scope.

(** ** Byte strings *)

Definition byte_val (c : ascii) : N := N_of_ascii c.

(** [s[n:]] for [n] within bounds (every use in the source is guarded by a
    regular expression that makes it so). *)
Fixpoint string_drop (n : nat) (s : string) : string :=
  match n, s with
  | O, _ => s
  | S _, EmptyString => EmptyString
  | S n', String _ r => string_drop n' r
  end.

(** [s[:n]] *)
Fixpoint string_take (n : nat) (s : string) : string :=
  match n, s with
  | O, _ => EmptyString
  | S _, EmptyString => EmptyString
  | S n', String c r => String c (string_take n' r)
  end.

Definition newline : ascii := "010"%char.
Definition dash : ascii := "-"%char.
Definition equals : ascii := "="%char.

Definition is_newline (c : ascii) : bool := bool_decide (c = newline).
Definition is_dash (c : ascii) : bool := bool_decide (c = dash).
Definition is_equals (c : ascii) : bool := bool_decide (c = equals).

(** ** The four regular expressions of [init]

    [regexp.MatchString] looks for a match anywhere, but each expression is
    anchored by [^], so a match is a prefix of the argument.  [.] matches
    every character except the newline. *)

(** [.*=] : an ['='] occurs before any newline. *)
Fixpoint dots_then_equals (s : string) : bool :=
  match s with
  | EmptyString => false
  | String c r =>
      if is_equals c then true
      else if is_newline c then false
      else dots_then_equals r
  end.

(** [^-.+] *)
Definition singleDash (s : string) : bool :=
  match s with
  | String d (String c _) => is_dash d && negb (is_newline c)
  | _ => false
  end.

(** [^--.+] *)
Definition multiDash (s : string) : bool :=
  match s with
  | String d1 (String d2 (String c _)) =>
      is_dash d1 && is_dash d2 && negb (is_newline c)
  | _ => false
  end.

(** [^-.+=] *)
Definition singleDashEquals (s : string) : bool :=
  match s with
  | String d (String c r) =>
      is_dash d && negb (is_newline c) && dots_then_equals r
  | _ => false
  end.

(** [^--.+=] *)
Definition multiDashEquals (s : string) : bool :=
  match s with
  | String d1 (String d2 (String c r)) =>
      is_dash d1 && is_dash d2 && negb (is_newline c) && dots_then_equals r
  | _ => false
  end.

(** ** Library functions used by the parser *)

(** [strings.Split(s, "=")]: cut at every ['=']; never returns an empty
    slice. *)
Fixpoint split_equals (s : string) : list string :=
  match s with
  | EmptyString => [EmptyString]
  | String c r =>
      if is_equals c then EmptyString :: split_equals r
      else match split_equals r with
           | h :: t => String c h :: t
           | [] => [String c EmptyString]
           end
  end.

(** UTF-8 lead bytes, after the table [first] of [unicode/utf8]: the size
    of the sequence and the accepted range of the second byte.  [None] is
    an ASCII byte or an invalid lead byte: both are one byte wide. *)
Definition lead_info (b : N) : option (nat * N * N) :=
  if (b <? 194)%N then None
  else if (b <? 224)%N then Some (2, 128%N, 191%N)
  else if (b =? 224)%N then Some (3, 160%N, 191%N)
  else if (b <? 237)%N then Some (3, 128%N, 191%N)
  else if (b =? 237)%N then Some (3, 128%N, 159%N)
  else if (b <? 240)%N then Some (3, 128%N, 191%N)
  else if (b =? 240)%N then Some (4, 144%N, 191%N)
  else if (b <? 244)%N then Some (4, 128%N, 191%N)
  else if (b =? 244)%N then Some (4, 128%N, 143%N)
  else None.

Definition outside (lo hi : N) (c : ascii) : bool :=
  (byte_val c <? lo)%N || (hi <? byte_val c)%N.

(** The width returned by [utf8.DecodeRuneInString] on a non-empty string;
    an invalid or truncated sequence is one byte wide. *)
Definition rune_size (s : string) : nat :=
  match s with
  | EmptyString => 0
  | String s0 t =>
      match lead_info (byte_val s0) with
      | None => 1
      | Some (sz, lo, hi) =>
          if (String.length s <? sz)%nat then 1
          else match t with
               | EmptyString => 1
               | String s1 t1 =>
                   if outside lo hi s1 then 1
                   else if (sz <=? 2)%nat then 2
                   else match t1 with
                        | EmptyString => 1
                        | String s2 t2 =>
                            if outside 128 191 s2 then 1
                            else if (sz <=? 3)%nat then 3
                            else match t2 with
                                 | EmptyString => 1
                                 | String s3 _ =>
                                     if outside 128 191 s3 then 1 else 4
                                 end
                        end
               end
      end
  end.

(** [strings.Split(s, "")]: one string per UTF-8 sequence, invalid bytes
    sliced individually.  The fuel is the length of the string: each piece
    is at least one byte. *)
Fixpoint explode_fuel (fuel : nat) (s : string) : list string :=
  match fuel with
  | O => []
  | S f =>
      match s with
      | EmptyString => []
      | String _ _ =>
          let n := rune_size s in
          string_take n s :: explode_fuel f (string_drop n s)
      end
  end.

Definition explode (s : string) : list string :=
  explode_fuel (String.length s) s.

(** [string(b)] for a byte [b]: the UTF-8 encoding of the code point [b]. *)
Definition string_of_byte (c : ascii) : string :=
  let b := byte_val c in
  if (b <? 128)%N then String c EmptyString
  else String (ascii_of_N (N.lor 192 (N.shiftr b 6)))
         (String (ascii_of_N (N.lor 128 (N.land b 63))) EmptyString).

(** ** [stripDashes] *)

Definition stripDashes (arg : string) : string :=
  if multiDash arg then string_drop 2 arg
  else if singleDash arg then string_drop 1 arg
  else arg.

(** ** Data model *)

Record opt : Type := mkOpt {
  key : string;
  long : string;
  short : string;
  isBool : bool;
  required : bool;
  usage : string
}.

(** The package-level variables.  The three tables hold pointers to one
    [opt] object each; an object is never written after [RegisterOpt] has
    filled it in, so the tables are modelled as holding its value. *)
Record state : Type := mkState {
  opts : gmap string opt;
  shortKeys : gmap string opt;
  longKeys : gmap string opt;
  requiredOpts : gmap string bool;
  boolVals : gmap string bool;
  stringVals : gmap string string;
  extraArgs : list string;
  parseError : string
}.

(** The state left by [init]. *)
Definition init : state :=
  mkState ∅ ∅ ∅ ∅ ∅ ∅ [] "".

Definition set_opts (f : gmap string opt → gmap string opt) (s : state) : state :=
  mkState (f (opts s)) (shortKeys s) (longKeys s) (requiredOpts s)
          (boolVals s) (stringVals s) (extraArgs s) (parseError s).
Definition set_shortKeys (f : gmap string opt → gmap string opt) (s : state) : state :=
  mkState (opts s) (f (shortKeys s)) (longKeys s) (requiredOpts s)
          (boolVals s) (stringVals s) (extraArgs s) (parseError s).
Definition set_longKeys (f : gmap string opt → gmap string opt) (s : state) : state :=
  mkState (opts s) (shortKeys s) (f (longKeys s)) (requiredOpts s)
          (boolVals s) (stringVals s) (extraArgs s) (parseError s).
Definition set_requiredOpts (f : gmap string bool → gmap string bool) (s : state) : state :=
  mkState (opts s) (shortKeys s) (longKeys s) (f (requiredOpts s))
          (boolVals s) (stringVals s) (extraArgs s) (parseError s).
Definition set_boolVals (f : gmap string bool → gmap string bool) (s : state) : state :=
  mkState (opts s) (shortKeys s) (longKeys s) (requiredOpts s)
          (f (boolVals s)) (stringVals s) (extraArgs s) (parseError s).
Definition set_stringVals (f : gmap string string → gmap string string) (s : state) : state :=
  mkState (opts s) (shortKeys s) (longKeys s) (requiredOpts s)
          (boolVals s) (f (stringVals s)) (extraArgs s) (parseError s).
Definition set_extraArgs (f : list string → list string) (s : state) : state :=
  mkState (opts s) (shortKeys s) (longKeys s) (requiredOpts s)
          (boolVals s) (stringVals s) (f (extraArgs s)) (parseError s).
Definition set_parseError (e : string) (s : state) : state :=
  mkState (opts s) (shortKeys s) (longKeys s) (requiredOpts s)
          (boolVals s) (stringVals s) (extraArgs s) e.

(** ** Error messages *)

Definition ERR_MISSING_VAL : string := "Missing value for option: ".
Definition ERR_NO_OPT : string := "No such option: ".
Definition ERR_BOOL_REQ : string := "An option can't be both boolean and required: ".
Definition ERR_REQ : string := "Required option(s) not provided: ".
Definition ERR_BOOL_WITH_VAL : string := "Boolean options can't be passed values: ".
Definition ERR_NONBOOL_MULTI : string := "Combined opts can't be non-boolean: ".
Definition ERR_NO_KEY : string :=
  "An option must contain either a long or short key (or both): ".
Definition ERR_SHORT_TOO_LONG : string :=
  "A short option can be no longer one character: ".
Definition ERR_LONG_TOO_SHORT : string :=
  "A long option must be longer than one character: ".
Definition ERR_OPT_KEY_ALREADY_EXISTS : string :=
  "An option was already registered with key: ".
Definition ERR_SHORT_ALREADY_EXISTS : string :=
  "An option was already registered with short key: ".
Definition ERR_LONG_ALREADY_EXISTS : string :=
  "An option was already registered with long key: ".

(** A Go [error]: [nil] or [errors.New msg]. *)
Definition error : Type := option string.

Definition nonempty (s : string) : bool :=
  match s with EmptyString => false | String _ _ => true end.

(** ** Procedures over the package state

    A procedure either runs to its end with a value or executes a [return]
    statement.  The state reached is kept in both cases: a write made before
    a [return] stays made. *)
Module Proc.

Inductive flow (R A : Type) : Type :=
| Returned (r : R)
| Value (a : A).
Arguments Returned {R A} r.
Arguments Value {R A} a.

Definition proc (R A : Type) : Type := state → flow R A * state.

Definition pure {R A} (a : A) : proc R A := fun s => (Value a, s).

Definition bind {R A B} (m : proc R A) (k : A → proc R B) : proc R B :=
  fun s =>
    match m s with
    | (Returned r, s') => (Returned r, s')
    | (Value a, s') => k a s'
    end.

(** [return r] *)
Definition return_ {R A} (r : R) : proc R A := fun s => (Returned r, s).

(** read a package variable *)
Definition read {R A} (f : state → A) : proc R A := fun s => (Value (f s), s).

(** write package variables *)
Definition write {R} (f : state → state) : proc R unit :=
  fun s => (Value tt, f s).

(** [if c { body }] *)
Definition when {R} (c : bool) (body : proc R unit) : proc R unit :=
  if c then body else pure tt.

(** Run a function body whose every path ends in [return]. *)
Definition call {R} (body : proc R R) (s : state) : R * state :=
  match body s with
  | (Returned r, s') => (r, s')
  | (Value r, s') => (r, s')
  end.

End Proc.

Import Proc.

#[global] Instance proc_ret {R} : MRet (proc R) := @pure R.
#[global] Instance proc_bind {R} : MBind (proc R) := fun A B k m => bind m k.

(** ** The registry *)

Definition present {A} (o : option A) : bool :=
  match o with Some _ => true | None => false end.

Definition RegisterOpt_body (key0 long0 short0 : string) (isBool0 isReq : bool)
    (usage0 : string) : proc error error :=
  let o := mkOpt key0 (stripDashes long0) (stripDashes short0) isBool0 isReq usage0 in
  when (isBool o && required o)
    (return_ (Some (ERR_BOOL_REQ +:+ key o)));;
  when (negb (nonempty (short o)) && negb (nonempty (long o)))
    (return_ (Some (ERR_NO_KEY +:+ key o)));;
  when (nonempty (short o) && (1 <? String.length (short o))%nat)
    (return_ (Some (ERR_SHORT_TOO_LONG +:+ short o)));;
  when (nonempty (long o) && (String.length (long o) <? 2)%nat)
    (return_ (Some (ERR_LONG_TOO_SHORT +:+ long o)));;
  oPres ← read (fun s => present (opts s !! key o));
  when oPres
    (return_ (Some (ERR_OPT_KEY_ALREADY_EXISTS +:+ key o)));;
  when (nonempty (short o))
    (sPres ← read (fun s => present (shortKeys s !! short o));
     when sPres (return_ (Some (ERR_SHORT_ALREADY_EXISTS +:+ short o))));;
  when (nonempty (long o))
    (lPres ← read (fun s => present (longKeys s !! long o));
     when lPres (return_ (Some (ERR_LONG_ALREADY_EXISTS +:+ long o))));;
  write (set_opts <[key o := o]>);;
  when (nonempty (short o)) (write (set_shortKeys <[short o := o]>));;
  when (nonempty (long o)) (write (set_longKeys <[long o := o]>));;
  when (required o) (write (set_requiredOpts <[key o := true]>));;
  return_ None.

Definition RegisterOpt (key0 long0 short0 : string) (isBool0 isReq : bool)
    (usage0 : string) (s : state) : error * state :=
  call (RegisterOpt_body key0 long0 short0 isBool0 isReq usage0) s.

(** [Clear]: the inner presence tests before [delete] change nothing, a
    [delete] of an absent key being a no-op; they are kept as written. *)
Definition Clear (k : string) (s : state) : state :=
  match opts s !! k with
  | Some o =>
      let s1 := if nonempty (short o) then set_shortKeys (delete (short o)) s else s in
      let s2 := if nonempty (long o) then set_longKeys (delete (long o)) s1 else s1 in
      let s3 := if required o then set_requiredOpts (delete (key o)) s2 else s2 in
      let s4 :=
        if isBool o then
          if present (boolVals s3 !! key o)
          then set_boolVals (delete (key o)) s3 else s3
        else
          if present (stringVals s3 !! key o)
          then set_stringVals (delete (key o)) s3 else s3 in
      set_opts (delete k) s4
  | None => s
  end.

(** [ClearAll]: [Clear] on every key of [opts], then the positional
    arguments and the error are reset.  Go ranges over the map in an
    unspecified order; [Clear k] removes only entry [k] of [opts], so every
    key present at the start is visited once.  The order taken here is that
    of [map_to_list]. *)
Definition ClearAll (s : state) : state :=
  let s1 := foldl (fun acc k => Clear k acc) s (map_to_list (opts s)).*1 in
  set_parseError "" (set_extraArgs (fun _ => []) s1).

(** ** Helper functions of the parser *)

(** [splitEqualsArg]: the two parts around the ['='], or [nil]. *)
Definition splitEqualsArg (arg : string) : option (list string) :=
  let workingArg := stripDashes arg in
  let parts := split_equals workingArg in
  match parts with
  | [_; p1] => if (0 <? String.length p1)%nat then Some parts else None
  | _ => None
  end.

(** [getValForEqualsSignArg] returns [(key, val, err)].  When neither
    [multiDash] nor [singleDash] matches, [opt] is still [nil] at
    [opt.isBool] and the function panics: that is [None]. *)
Definition getValForEqualsSignArg (s : state) (arg : string)
    : option (string * string * error) :=
  match splitEqualsArg arg with
  | None => Some ("", "", Some (ERR_MISSING_VAL +:+ arg))
  | Some parts =>
      let p0 := nth 0 parts "" in
      let p1 := nth 1 parts "" in
      let found : error + option opt :=
        if multiDash arg then
          match longKeys s !! p0 with
          | None => inl (Some (ERR_NO_OPT +:+ p0))
          | Some o => inr (Some o)
          end
        else if singleDash arg then
          match shortKeys s !! p0 with
          | None => inl (Some (ERR_NO_OPT +:+ p0))
          | Some o => inr (Some o)
          end
        else inr None in
      match found with
      | inl e => Some ("", "", e)
      | inr None => None
      | inr (Some o) =>
          if isBool o then Some ("", "", Some (ERR_BOOL_WITH_VAL +:+ arg))
          else if (String.length p1 <? 1)%nat
          then Some ("", "", Some (ERR_MISSING_VAL +:+ arg))
          else Some (key o, p1, None)
      end
  end.

(** The loop of [getMultiOptKeys]: [(isMultiOpt, multiOptParts)]. *)
Fixpoint multiOptLoop (sk : gmap string opt) (parts multiOptParts : list string)
    : bool * list string :=
  match parts with
  | [] => (true, multiOptParts)
  | part :: rest =>
      if present (sk !! part) then multiOptLoop sk rest (multiOptParts ++ [part])
      else (false, multiOptParts)
  end.

(** [getMultiOptKeys]: [None] is the [nil] slice. *)
Definition getMultiOptKeys (s : state) (arg : string) : option (list string) :=
  let workingArg := stripDashes arg in
  let parts := explode workingArg in
  let '(isMultiOpt, multiOptParts) := multiOptLoop (shortKeys s) parts [] in
  if isMultiOpt then Some multiOptParts else None.

(** [lookaheadForVal]: the next argument, or the empty string. *)
Definition lookaheadForVal (args : list string) (currentKey : nat) : string :=
  if (currentKey <? length args - 1)%nat then
    match args !! (currentKey + 1)%nat with
    | Some nextVal =>
        if singleDashEquals nextVal || singleDash nextVal
           || multiDashEquals nextVal || multiDash nextVal
        then "" else nextVal
    | None => ""
    end
  else "".

(** The name under which [getMissingReqOptsError] reports a missing key. *)
Definition msgKey (s : state) (mk : string) : string :=
  match opts s !! mk with
  | Some o =>
      let m1 := if nonempty (short o) then "-" +:+ short o else mk in
      let m2 := if nonempty (long o) then "--" +:+ long o else m1 in
      if nonempty (short o) && nonempty (long o)
      then "-" +:+ short o +:+ " or " +:+ "--" +:+ long o
      else m2
  | None => mk
  end.

(** [getMissingReqOptsError].  The keys of [requiredOpts] are taken in the
    order of [map_to_list]; Go leaves the order unspecified, and nothing
    proved below depends on it. *)
Definition getMissingReqOptsError (s : state) (foundReqOpts requiredOpts0 : gmap string bool)
    : string :=
  let missingKeys :=
    filter (fun reqName => foundReqOpts !! reqName = None)
           (map_to_list requiredOpts0).*1 in
  if (0 <? length missingKeys)%nat then
    foldl (fun errorText '(i, mk) =>
             if (i <? length missingKeys - 1)%nat
             then errorText +:+ msgKey s mk +:+ ", "
             else errorText +:+ msgKey s mk)
          ERR_REQ (imap pair missingKeys)
  else "".

(** ** [Parse] *)

(** What one turn of the main loop does: [return] with the state reached,
    fall to the end of the body with the loop variable [i] as the body left
    it, or panic. *)
Inductive outcome : Type :=
| Halt (s : state)
| Continue (i : nat) (foundReqs : gmap string bool) (s : state)
| Crash.

(** First pass over the combined keys: the first non-boolean one. *)
Fixpoint firstNonBool (sk : gmap string opt) (multiOpts : list string)
    : option (option string) :=
  match multiOpts with
  | [] => Some None
  | k :: rest =>
      match sk !! k with
      | None => None
      | Some o => if negb (isBool o) then Some (Some k) else firstNonBool sk rest
      end
  end.

(** Second pass: every key is set. *)
Fixpoint setAllBool (multiOpts : list string) (s : state) : option state :=
  match multiOpts with
  | [] => Some s
  | k :: rest =>
      match shortKeys s !! k with
      | None => None
      | Some o => setAllBool rest (set_boolVals <[key o := true]> s)
      end
  end.

Definition markFound (o : opt) (foundReqs : gmap string bool) : gmap string bool :=
  if required o then <[key o := true]> foundReqs else foundReqs.

(** The equals branch looks the option up again, by its key. *)
Definition markFoundByKey (s : state) (k : string) (foundReqs : gmap string bool)
    : gmap string bool :=
  match opts s !! k with
  | Some o => if required o then <[k := true]> foundReqs else foundReqs
  | None => foundReqs
  end.

(** The value branch shared by [--long] and [-s]: lookahead. *)
Definition lookaheadBranch (args : list string) (i : nat) (arg : string) (o : opt)
    (foundReqs : gmap string bool) (s : state) : outcome :=
  let val := lookaheadForVal args i in
  if negb (nonempty val) then Halt (set_parseError (ERR_MISSING_VAL +:+ arg) s)
  else Continue (i + 1) (markFound o foundReqs) (set_stringVals <[key o := val]> s).

(** The body of the main loop for [arg = args[i]]. *)
Definition step (args : list string) (i : nat) (arg : string)
    (foundReqs : gmap string bool) (s : state) : outcome :=
  if singleDashEquals arg || multiDashEquals arg then
    match getValForEqualsSignArg s arg with
    | None => Crash
    | Some (_, _, Some err) => Halt (set_parseError err s)
    | Some (k, val, None) =>
        Continue i (markFoundByKey s k foundReqs) (set_stringVals <[k := val]> s)
    end
  else if multiDash arg then
    let stripped := stripDashes arg in
    match longKeys s !! stripped with
    | None => Halt (set_parseError (ERR_NO_OPT +:+ arg) s)
    | Some o =>
        if isBool o then Continue i foundReqs (set_boolVals <[key o := true]> s)
        else lookaheadBranch args i arg o foundReqs s
    end
  else if singleDash arg then
    let stripped := stripDashes arg in
    if (String.length stripped =? 1)%nat then
      match shortKeys s !! stripped with
      | Some o =>
          if isBool o then Continue i foundReqs (set_boolVals <[key o := true]> s)
          else lookaheadBranch args i arg o foundReqs s
      | None => Halt (set_parseError (ERR_NO_OPT +:+ arg) s)
      end
    else
      match getMultiOptKeys s arg with
      | Some multiOpts =>
          match firstNonBool (shortKeys s) multiOpts with
          | None => Crash
          | Some (Some k) => Halt (set_parseError (ERR_NONBOOL_MULTI +:+ k) s)
          | Some None =>
              match setAllBool multiOpts s with
              | None => Crash
              | Some s' => Continue i foundReqs s'
              end
          end
      | None =>
          match stripped with
          | EmptyString => Crash
          | String c0 rest =>
              let k := string_of_byte c0 in
              match shortKeys s !! k with
              | None => Halt (set_parseError (ERR_NO_OPT +:+ k) s)
              | Some o =>
                  if isBool o then Halt (set_parseError (ERR_BOOL_WITH_VAL +:+ arg) s)
                  else Continue i (markFound o foundReqs)
                         (set_stringVals <[key o := rest]> s)
              end
          end
      end
  else
    Continue i foundReqs (set_extraArgs (fun extra => app extra [arg]) s).

(** How the main loop ends. *)
Inductive loop_end : Type :=
| Aborted (i : nat) (s : state)
| Completed (foundReqs : gmap string bool) (s : state).

(** [for ; i < len(args); i++ { ... }], entered with the loop variable at
    [i].  Each turn increases [i], so [length args] turns are enough;
    [None] is a panic or the end of the fuel. *)
Fixpoint mainLoop (fuel : nat) (args : list string) (i : nat)
    (foundReqs : gmap string bool) (s : state) : option loop_end :=
  match args !! i with
  | None => Some (Completed foundReqs s)
  | Some arg =>
      match fuel with
      | O => None
      | S fuel' =>
          match step args i arg foundReqs s with
          | Halt s' => Some (Aborted i s')
          | Crash => None
          | Continue i' foundReqs' s' =>
              mainLoop fuel' args (i' + 1) foundReqs' s'
          end
      end
  end.

(** The check after the loop. *)
Definition checkRequired (foundReqs : gmap string bool) (s : state) : state :=
  if (0 <? size (requiredOpts s))%nat
  then set_parseError (getMissingReqOptsError s foundReqs (requiredOpts s)) s
  else s.

(** [Parse], with [os.Args] as the argument [args]. *)
Definition Parse (args : list string) (s : state) : option state :=
  let foundReqs : gmap string bool := ∅ in
  if (length args <? 2)%nat then Some (checkRequired foundReqs s)
  else
    match mainLoop (length args) args 1 foundReqs s with
    | None => None
    | Some (Aborted _ s') => Some s'
    | Some (Completed foundReqs' s') => Some (checkRequired foundReqs' s')
    end.

(** ** Accessors *)

Definition GetString (k : string) (s : state) : string :=
  match stringVals s !! k with Some val => val | None => "" end.

Definition GetBool (k : string) (s : state) : bool :=
  present (boolVals s !! k).

Definition GetArgs (s : state) : list string := extraArgs s.

Definition HasError (s : state) : bool := nonempty (parseError s).

Definition GetError (s : state) : error :=
  if HasError s then Some (parseError s) else None.

(** ** Vocabulary of the statements *)

(** The test of [lookaheadForVal]: one of the four expressions matches. *)
Definition dashForm (v : string) : bool :=
  singleDashEquals v || singleDash v || multiDashEquals v || multiDash v.

(** A token that does not start with a dash, or the lone dash. *)
Definition startsWithDash (arg : string) : bool :=
  match arg with
  | String c _ => is_dash c
  | EmptyString => false
  end.

Definition positional (arg : string) : Prop :=
  startsWithDash arg = false ∨ arg = "-".

Definition resolves (sk : gmap string opt) (c : string) : Prop :=
  is_Some (sk !! c).

(** [-x=value] or [--xx=value]: the first test of the loop body. *)
Definition equalsForm (arg : string) : bool :=
  singleDashEquals arg || multiDashEquals arg.

(** The index in which [getValForEqualsSignArg] looks the left part up. *)
Definition indexFor (s : state) (arg : string) : gmap string opt :=
  if multiDash arg then longKeys s else shortKeys s.

Fixpoint noEquals (s : string) : bool :=
  match s with
  | EmptyString => true
  | String c r => negb (is_equals c) && noEquals r
  end.

(** A registry with one option, of short form [t] and long form [test]. *)
Definition registerOne (k : string) (isBool0 isReq : bool) (u : string) : state :=
  (RegisterOpt k "test" "t" isBool0 isReq u init).2.

(** [-x...], neither an equals form nor a long form: the third test of the
    loop body. *)
Definition shortForm (arg : string) : bool :=
  negb (equalsForm arg) && negb (multiDash arg) && singleDash arg.

(** [--x...] that is not an equals form: the second test. *)
Definition longForm (arg : string) : bool :=
  negb (equalsForm arg) && multiDash arg.

Definition boolean (sk : gmap string opt) (c : string) : Prop :=
  ∃ o, sk !! c = Some o ∧ isBool o = true.

Definition nonBoolean (sk : gmap string opt) (c : string) : Prop :=
  ∃ o, sk !! c = Some o ∧ isBool o = false.

(** A non-boolean option written as a bare [--xx] or as a bare [-x] of one
    character: the two places where [Parse] calls [lookaheadForVal]. *)
Definition bareValueOption (s : state) (arg : string) (o : opt) : Prop :=
  isBool o = false
  ∧ ((longForm arg = true ∧ longKeys s !! stripDashes arg = Some o)
     ∨ (shortForm arg = true ∧ String.length (stripDashes arg) = 1%nat
        ∧ shortKeys s !! stripDashes arg = Some o)).

(** The token after position [i] is there, is not empty and is not a dash
    form. *)
Definition validNext (args : list string) (i : nat) (v : string) : Prop :=
  args !! (i + 1)%nat = Some v ∧ nonempty v = true ∧ dashForm v = false.

(** Register a list of options in turn, from the state [s]. *)
Definition registerMany (l : list opt) (s : state) : state :=
  foldl (fun acc o =>
           (RegisterOpt (key o) (long o) (short o) (isBool o) (required o)
              (usage o) acc).2) s l.

(** Two boolean options [a] and [b] and a non-boolean option [t]/[test]. *)
Definition exampleRegistry : state :=
  registerMany [mkOpt "alpha" "" "a" true false "";
                mkOpt "beta" "" "b" true false "";
                mkOpt "opt" "test" "t" false false ""] init.

(** One string per byte. *)
Fixpoint bytes (s : string) : list string :=
  match s with
  | EmptyString => []
  | String c r => String c EmptyString :: bytes r
  end.

Fixpoint isAscii (s : string) : bool :=
  match s with
  | EmptyString => true
  | String c r => (byte_val c <? 128)%N && isAscii r
  end.

(** The option of [registerOne] and the state it leaves. *)
Definition oneOption (k : string) (b req : bool) (u : string) : opt :=
  mkOpt k "test" "t" b req u.

Definition oneState (k : string) (b req : bool) (u : string) : state :=
  mkState {[k := oneOption k b req u]} {["t" := oneOption k b req u]}
          {["test" := oneOption k b req u]}
          (if req then {[k := true]} else ∅) ∅ ∅ [] "".

(** A scan of [args] from [r] ends without error, with [v] bound to [k]. *)
Definition scansTo (r : state) (args : list string) (k v : string) : Prop :=
  ∃ s', Parse args r = Some s' ∧ HasError s' = false ∧ GetString k s' = v.

(** The scan of [args] from [s] goes through every token without a
    token-level error and reaches [s1] with the keys [foundReqs] found;
    fewer than two elements means that no token is classified. *)
Definition scanCompletes (args : list string) (s : state)
    (foundReqs : gmap string bool) (s1 : state) : Prop :=
  ((length args < 2)%nat ∧ foundReqs = ∅ ∧ s1 = s)
  ∨ ((2 ≤ length args)%nat
     ∧ mainLoop (length args) args 1 ∅ s = Some (Completed foundReqs s1)).


(** The validations of a registration in the order (a) to (g) of the
    specification, as one decision on the option and the state: the first
    failing one gives the error. *)
Definition registrationCheck (o : opt) (s : state) : error :=
  if isBool o && required o then Some (ERR_BOOL_REQ +:+ key o)
  else if negb (nonempty (short o)) && negb (nonempty (long o))
  then Some (ERR_NO_KEY +:+ key o)
  else if nonempty (short o) && (1 <? String.length (short o))%nat
  then Some (ERR_SHORT_TOO_LONG +:+ short o)
  else if nonempty (long o) && (String.length (long o) <? 2)%nat
  then Some (ERR_LONG_TOO_SHORT +:+ long o)
  else if present (opts s !! key o)
  then Some (ERR_OPT_KEY_ALREADY_EXISTS +:+ key o)
  else if nonempty (short o) && present (shortKeys s !! short o)
  then Some (ERR_SHORT_ALREADY_EXISTS +:+ short o)
  else if nonempty (long o) && present (longKeys s !! long o)
  then Some (ERR_LONG_ALREADY_EXISTS +:+ long o)
  else None.

(** The four tables after a successful registration of [o]. *)
Definition insertOpt (o : opt) (s : state) : state :=
  mkState (<[key o := o]> (opts s))
          (if nonempty (short o) then <[short o := o]> (shortKeys s)
           else shortKeys s)
          (if nonempty (long o) then <[long o := o]> (longKeys s)
           else longKeys s)
          (if required o then <[key o := true]> (requiredOpts s)
           else requiredOpts s)
          (boolVals s) (stringVals s) (extraArgs s) (parseError s).

(** The seven registration errors for the given arguments. *)
Definition registrationErrors (key0 long0 short0 : string) : list string :=
  [ERR_BOOL_REQ +:+ key0; ERR_NO_KEY +:+ key0;
   ERR_SHORT_TOO_LONG +:+ stripDashes short0;
   ERR_LONG_TOO_SHORT +:+ stripDashes long0;
   ERR_OPT_KEY_ALREADY_EXISTS +:+ key0;
   ERR_SHORT_ALREADY_EXISTS +:+ stripDashes short0;
   ERR_LONG_ALREADY_EXISTS +:+ stripDashes long0].

(** The table [idx] indexes the canonical table [canon] by the form [f]
    (short or long): it holds exactly the registered options whose form is
    not empty, each under that form. *)
Definition indexed (f : opt → string) (idx canon : gmap string opt) : Prop :=
  ∀ x o,
    idx !! x = Some o
    ↔ nonempty x = true ∧ f o = x ∧ canon !! key o = Some o.

(** The registry tables agree: an entry of the canonical table sits under
    its own key; the short and the long table index it; and the required
    set holds exactly the keys of the registered options marked required. *)
Record consistent (s : state) : Prop := mkConsistent {
  opts_keyed : ∀ k o, opts s !! k = Some o → key o = k;
  short_index : indexed short (shortKeys s) (opts s);
  long_index : indexed long (longKeys s) (opts s);
  required_index : ∀ k,
    is_Some (requiredOpts s !! k)
    ↔ ∃ o, opts s !! k = Some o ∧ required o = true
}.

(** The operations on the registry. *)
Inductive op : Type :=
| OpRegister (key0 long0 short0 : string) (isBool0 isReq : bool) (usage0 : string)
| OpClear (key0 : string)
| OpClearAll.

Definition runOp (o : op) (s : state) : state :=
  match o with
  | OpRegister key0 long0 short0 isBool0 isReq usage0 =>
      (RegisterOpt key0 long0 short0 isBool0 isReq usage0 s).2
  | OpClear key0 => Clear key0 s
  | OpClearAll => ClearAll s
  end.

Definition runOps (ops : list op) (s : state) : state :=
  foldl (fun acc o => runOp o acc) s ops.

(** ** [GetUsage]

    One stretch of text per option, in the order in which Go ranges over
    [opts]; the order taken here is that of [map_to_list]. *)
Definition usageOf (useStr : string) (o : opt) : string :=
  let u1 := if nonempty (short o)
            then useStr +:+ ("-" +:+ short o +:+ " ") else useStr in
  let u2 := if nonempty (long o)
            then u1 +:+ ("--" +:+ long o +:+ " ") else u1 in
  let u3 := if required o then u2 +:+ "REQUIRED " else u2 in
  let u4 := if negb (isBool o) then u3 +:+ "<value> " else u3 in
  if nonempty (usage o) then u4 +:+ (usage o +:+ String newline EmptyString)
  else u4.

Definition GetUsage (s : state) : string :=
  foldl (fun useStr '(_, o) => usageOf useStr o) "" (map_to_list (opts s)).

(** ** Programs over the package: any sequence of calls *)

Inductive action : Type :=
| ActRegister (key0 long0 short0 : string) (isBool0 isReq : bool) (usage0 : string)
| ActClear (key0 : string)
| ActClearAll
| ActParse (args : list string).

(** A panic of [Parse] would end the program; the state is then left as it
    was.  ([Parse] never panics, see below.) *)
Definition runAction (a : action) (s : state) : state :=
  match a with
  | ActRegister key0 long0 short0 isBool0 isReq usage0 =>
      (RegisterOpt key0 long0 short0 isBool0 isReq usage0 s).2
  | ActClear key0 => Clear key0 s
  | ActClearAll => ClearAll s
  | ActParse args =>
      match Parse args s with
      | Some s' => s'
      | None => s
      end
  end.

Definition runActions (acts : list action) (s : state) : state :=
  foldl (fun acc a => runAction a acc) s acts.

(** What a turn of the main loop that goes on may have done to the state,
    for the token [arg]. *)
Inductive effect (s : state) (arg : string) : state → Prop :=
| effect_string x o v :
    shortKeys s !! x = Some o ∨ longKeys s !! x = Some o →
    isBool o = false → nonempty v = true →
    effect s arg (set_stringVals <[key o := v]> s)
| effect_bool x o :
    shortKeys s !! x = Some o ∨ longKeys s !! x = Some o →
    isBool o = true →
    effect s arg (set_boolVals <[key o := true]> s)
| effect_bools bv :
    (∀ k, bv !! k = boolVals s !! k
          ∨ (bv !! k = Some true
             ∧ ∃ c o, shortKeys s !! c = Some o ∧ isBool o = true ∧ key o = k)) →
    effect s arg (set_boolVals (fun _ => bv) s)
| effect_positional :
    singleDash arg = false →
    effect s arg (set_extraArgs (fun extra => app extra [arg]) s).

(** The shape that [RegisterOpt] demands of an option. *)
Definition optionValid (o : opt) : Prop :=
  (isBool o && required o) = false
  ∧ (nonempty (short o) || nonempty (long o)) = true
  ∧ (nonempty (short o) = true → String.length (short o) = 1%nat)
  ∧ (nonempty (long o) = true → (2 ≤ String.length (long o))%nat).

(** Every bound value belongs to a registered option of its kind, and no
    bound string is empty. *)
Definition valuesTyped (s : state) : Prop :=
  (∀ k, is_Some (boolVals s !! k) →
        ∃ o, opts s !! k = Some o ∧ isBool o = true)
  ∧ (∀ k v, stringVals s !! k = Some v →
            nonempty v = true ∧ ∃ o, opts s !! k = Some o ∧ isBool o = false).

(** What holds of the package state whatever the program did. *)
Record sound (s : state) : Prop := mkSound {
  sound_consistent : consistent s;
  sound_valid : ∀ k o, opts s !! k = Some o → optionValid o;
  sound_typed : valuesTyped s
}.

(** The four registry tables of two states are the same. *)
Definition sameRegistry (s s' : state) : Prop :=
  opts s' = opts s ∧ shortKeys s' = shortKeys s ∧ longKeys s' = longKeys s
  ∧ requiredOpts s' = requiredOpts s.

(** The state in which a loop ends. *)
Definition endState (r : loop_end) : state :=
  match r with
  | Aborted _ s => s
  | Completed _ s => s
  end.

(** Counting line ends, for [GetUsage]. *)
Fixpoint countNewlines (s : string) : nat :=
  match s with
  | EmptyString => 0
  | String c r => (if is_newline c then 1 else 0) + countNewlines r
  end.

(** The pieces put back together. *)
Definition joinStrings (l : list string) : string :=
  foldr String.append EmptyString l.

(** The form under which the required-options message names an option:
    both forms, else the long one, else the short one. *)
Definition bestForm (o : opt) : string :=
  if nonempty (short o) && nonempty (long o)
  then "-" +:+ short o +:+ " or --" +:+ long o
  else if nonempty (long o) then "--" +:+ long o
  else "-" +:+ short o.

(** * Properties *)

(** ** The regular expressions *)

Lemma singleDashEquals_singleDash arg :
  singleDashEquals arg = true → singleDash arg = true.
Proof.
  destruct arg as [|d [|c r]]; simpl; try done.
  intros H. apply andb_true_iff in H as [H _]. done.
Qed.

Lemma multiDashEquals_multiDash arg :
  multiDashEquals arg = true → multiDash arg = true.
Proof.
  destruct arg as [|d1 [|d2 [|c r]]]; simpl; try done.
  intros H. apply andb_true_iff in H as [H _]. done.
Qed.

Lemma multiDash_singleDash arg :
  multiDash arg = true → singleDash arg = true.
Proof.
  destruct arg as [|d1 [|d2 [|c r]]]; simpl; try done.
  intros H. apply andb_true_iff in H as [H _].
  apply andb_true_iff in H as [H1 H2]. rewrite H1. simpl.
  unfold is_dash, is_newline in *.
  apply bool_decide_eq_true in H2. subst d2. done.
Qed.

Lemma dashForm_singleDash v : dashForm v = singleDash v.
Proof.
  unfold dashForm.
  destruct (singleDash v) eqn:Hs.
  - by rewrite orb_true_r.
  - destruct (singleDashEquals v) eqn:H1.
    { apply singleDashEquals_singleDash in H1. congruence. }
    destruct (multiDash v) eqn:H2.
    { apply multiDash_singleDash in H2. congruence. }
    destruct (multiDashEquals v) eqn:H3; [|done].
    apply multiDashEquals_multiDash in H3. congruence.
Qed.

Lemma positional_no_singleDash arg : positional arg → singleDash arg = false.
Proof.
  intros [H | ->]; [|done].
  destruct arg as [|d [|c r]]; simpl in *; try done. by rewrite H.
Qed.

Lemma positional_no_dashForm arg : positional arg → dashForm arg = false.
Proof. intros H. rewrite dashForm_singleDash. by apply positional_no_singleDash. Qed.

Lemma no_singleDash_forms arg :
  singleDash arg = false →
  singleDashEquals arg = false ∧ multiDashEquals arg = false ∧ multiDash arg = false.
Proof.
  intros H. repeat split.
  - destruct (singleDashEquals arg) eqn:E; [|done].
    apply singleDashEquals_singleDash in E. congruence.
  - destruct (multiDashEquals arg) eqn:E; [|done].
    apply multiDashEquals_multiDash, multiDash_singleDash in E. congruence.
  - destruct (multiDash arg) eqn:E; [|done].
    apply multiDash_singleDash in E. congruence.
Qed.

(** ** [stripDashes] on a dash form leaves at least one character *)

Lemma stripDashes_singleDash_nonempty arg :
  singleDash arg = true → nonempty (stripDashes arg) = true.
Proof.
  unfold stripDashes. intros Hs.
  destruct (multiDash arg) eqn:Hm.
  - destruct arg as [|d1 [|d2 [|c r]]]; simpl in *; done.
  - rewrite Hs. destruct arg as [|d1 [|d2 r]]; simpl in *; done.
Qed.

(** ** The helper functions *)

Lemma present_true {A} (o : option A) : present o = true ↔ is_Some o.
Proof. destruct o; simpl; split; intros H; try done; by inversion H. Qed.

Lemma present_false {A} (o : option A) : present o = false ↔ o = None.
Proof. destruct o; simpl; split; intros H; done. Qed.

Lemma multiOptLoop_true sk parts acc r :
  multiOptLoop sk parts acc = (true, r) →
  r = (acc ++ parts)%list ∧ Forall (resolves sk) parts.
Proof.
  revert acc. induction parts as [|p parts IH]; simpl; intros acc H.
  - inversion H. by rewrite app_nil_r.
  - destruct (present (sk !! p)) eqn:Hp; [|done].
    apply IH in H as [-> HF]. rewrite <- app_assoc. split; [done|].
    constructor; [by apply present_true|done].
Qed.

Lemma multiOptLoop_false sk parts acc r :
  multiOptLoop sk parts acc = (false, r) → ¬ Forall (resolves sk) parts.
Proof.
  revert acc. induction parts as [|p parts IH]; simpl; intros acc H HF.
  - done.
  - inversion HF as [|? ? Hp HF']; subst.
    apply present_true in Hp. rewrite Hp in H. by eapply IH.
Qed.

Lemma getMultiOptKeys_Some s arg ks :
  getMultiOptKeys s arg = Some ks ↔
  ks = explode (stripDashes arg) ∧ Forall (resolves (shortKeys s)) ks.
Proof.
  unfold getMultiOptKeys.
  destruct (multiOptLoop _ _ _) as [b r] eqn:E. destruct b.
  - apply multiOptLoop_true in E as [-> HF]. simpl in *. split.
    + intros [= <-]. done.
    + intros [-> _]. done.
  - apply multiOptLoop_false in E. split; [done|].
    intros [-> HF]. done.
Qed.

Lemma getMultiOptKeys_None s arg :
  getMultiOptKeys s arg = None ↔
  ¬ Forall (resolves (shortKeys s)) (explode (stripDashes arg)).
Proof.
  split.
  - intros H HF.
    assert (getMultiOptKeys s arg = Some (explode (stripDashes arg))) as H'
      by (by apply getMultiOptKeys_Some).
    congruence.
  - intros H. destruct (getMultiOptKeys s arg) as [ks|] eqn:E; [|done].
    apply getMultiOptKeys_Some in E as [-> HF]. done.
Qed.

(** [lookaheadForVal] reads nothing of [args] but the next element. *)
Lemma lookaheadForVal_lookup args i :
  lookaheadForVal args i =
  match args !! (i + 1)%nat with
  | Some v => if dashForm v then "" else v
  | None => ""
  end.
Proof.
  unfold lookaheadForVal, dashForm.
  destruct (args !! (i + 1)%nat) as [v|] eqn:E.
  - apply lookup_lt_Some in E.
    assert ((i <? length args - 1)%nat = true) as -> by (apply Nat.ltb_lt; lia).
    done.
  - by destruct (i <? length args - 1)%nat.
Qed.

(** ** One turn of the loop *)

Lemma firstNonBool_resolved sk ks :
  Forall (resolves sk) ks → is_Some (firstNonBool sk ks).
Proof.
  induction 1 as [|k ks [o Ho] _ IH]; simpl; [done|].
  rewrite Ho. by destruct (isBool o).
Qed.

Lemma setAllBool_shortKeys ks s s' :
  setAllBool ks s = Some s' →
  opts s' = opts s ∧ shortKeys s' = shortKeys s ∧ longKeys s' = longKeys s
  ∧ requiredOpts s' = requiredOpts s ∧ stringVals s' = stringVals s
  ∧ extraArgs s' = extraArgs s ∧ parseError s' = parseError s.
Proof.
  revert s. induction ks as [|k ks IH]; simpl; intros s H.
  - by inversion H.
  - destruct (shortKeys s !! k) as [o|]; [|done].
    apply IH in H. simpl in H. done.
Qed.

Lemma setAllBool_resolved ks s :
  Forall (resolves (shortKeys s)) ks → is_Some (setAllBool ks s).
Proof.
  revert s. induction ks as [|k ks IH]; simpl; intros s HF; [done|].
  inversion HF as [|? ? [o Ho] HF']; subst. rewrite Ho.
  apply IH. done.
Qed.

(** The nil dereferences and the index expression of the loop body are
    never reached with a nil pointer or an empty string. *)
Lemma step_no_crash args i arg foundReqs s :
  step args i arg foundReqs s ≠ Crash.
Proof.
  unfold step.
  destruct (singleDashEquals arg || multiDashEquals arg) eqn:He.
  - assert (singleDash arg = true) as Hs.
    { apply orb_true_iff in He as [H|H].
      - by apply singleDashEquals_singleDash.
      - by apply multiDash_singleDash, multiDashEquals_multiDash. }
    unfold getValForEqualsSignArg.
    destruct (splitEqualsArg arg) as [parts|]; [|done].
    rewrite Hs.
    destruct (multiDash arg).
    + destruct (longKeys s !! _) as [o|]; [|done].
      destruct (isBool o); [done|]. by destruct (_ <? _)%nat.
    + destruct (shortKeys s !! _) as [o|]; [|done].
      destruct (isBool o); [done|]. by destruct (_ <? _)%nat.
  - destruct (multiDash arg) eqn:Hm.
    { destruct (longKeys s !! _) as [o|]; [|done].
      destruct (isBool o); [done|].
      unfold lookaheadBranch. by destruct (negb _). }
    destruct (singleDash arg) eqn:Hs; [|done].
    destruct (String.length (stripDashes arg) =? 1)%nat.
    { destruct (shortKeys s !! _) as [o|]; [|done].
      destruct (isBool o); [done|].
      unfold lookaheadBranch. by destruct (negb _). }
    destruct (getMultiOptKeys s arg) as [ks|] eqn:Hk.
    + apply getMultiOptKeys_Some in Hk as [_ HF].
      destruct (firstNonBool_resolved _ _ HF) as [[k|] ->]; [done|].
      destruct (setAllBool_resolved _ _ HF) as [s' ->]. done.
    + pose proof (stripDashes_singleDash_nonempty _ Hs) as Hne.
      destruct (stripDashes arg) as [|c0 rest]; [done|].
      destruct (shortKeys s !! _) as [o|]; [|done].
      by destruct (isBool o).
Qed.

(** The body leaves the loop variable where it was or one further. *)
Lemma step_continue_index args i arg foundReqs s i' foundReqs' s' :
  step args i arg foundReqs s = Continue i' foundReqs' s' →
  i' = i ∨ i' = (i + 1)%nat.
Proof.
  unfold step, lookaheadBranch.
  repeat case_match; intros [=]; subst; auto.
Qed.

(** ** The loop runs to an end: [Parse] is total *)

Lemma mainLoop_total fuel (args : list string) i foundReqs s :
  (length args ≤ fuel + i)%nat → is_Some (mainLoop fuel args i foundReqs s).
Proof.
  revert i foundReqs s. induction fuel as [|fuel IH]; intros i foundReqs s Hle; simpl.
  - rewrite lookup_ge_None_2; [done | lia].
  - destruct (args !! i) as [arg|] eqn:Ha; [|done].
    destruct (step args i arg foundReqs s) as [s'|i' f' s'|] eqn:Hs.
    + done.
    + apply step_continue_index in Hs. apply IH. lia.
    + by apply step_no_crash in Hs.
Qed.

Lemma Parse_total args s : is_Some (Parse args s).
Proof.
  unfold Parse. destruct (length args <? 2)%nat; [done|].
  destruct (mainLoop_total (length args) args 1 ∅ s) as [r Hr]; [lia|].
  rewrite Hr. by destruct r.
Qed.

(** ** Positional arguments *)

Lemma step_positional args i arg foundReqs s :
  positional arg →
  step args i arg foundReqs s =
  Continue i foundReqs (set_extraArgs (fun extra => app extra [arg]) s).
Proof.
  intros Hp. apply positional_no_singleDash in Hp as Hs.
  destruct (no_singleDash_forms _ Hs) as (H1 & H2 & H3).
  unfold step. by rewrite H1, H2, H3, Hs.
Qed.

Lemma set_extraArgs_nil s : set_extraArgs (fun extra => app extra []) s = s.
Proof. destruct s. unfold set_extraArgs. simpl. by rewrite app_nil_r. Qed.

Lemma set_extraArgs_cons a rest s :
  set_extraArgs (fun extra => app extra rest)
    (set_extraArgs (fun extra => app extra [a]) s)
  = set_extraArgs (fun extra => app extra (a :: rest)) s.
Proof. unfold set_extraArgs. simpl. by rewrite <- app_assoc. Qed.

Lemma mainLoop_positional rest pre fuel foundReqs s :
  Forall positional rest →
  (length rest ≤ fuel)%nat →
  mainLoop fuel (pre ++ rest)%list (length pre) foundReqs s =
  Some (Completed foundReqs (set_extraArgs (fun extra => app extra rest) s)).
Proof.
  revert pre fuel s.
  induction rest as [|a rest IH]; intros pre fuel s HF Hlen.
  - rewrite set_extraArgs_nil.
    destruct fuel; simpl; rewrite lookup_ge_None_2; try done;
      rewrite app_nil_r; lia.
  - inversion HF as [|? ? Ha HF']; subst.
    destruct fuel as [|fuel]; simpl in Hlen; [lia|].
    simpl. rewrite list_lookup_middle; [|done].
    rewrite step_positional; [|done].
    replace (pre ++ a :: rest)%list with ((pre ++ [a]) ++ rest)%list
      by (by rewrite <- app_assoc).
    replace (length pre + 1)%nat with (length (pre ++ [a])%list)
      by (rewrite length_app; simpl; lia).
    rewrite IH; [|done|lia]. by rewrite set_extraArgs_cons.
Qed.

(** C1 (as amended): a token that the scanner classifies and that has no
    leading dash, or is the lone ["-"], is appended verbatim at the end of
    the positional sequence and produces no error; a scan of such tokens
    only collects them all, in order, and ends in the required-option
    check.  The lone ["--"] is not such a token: it is handled as the short
    option whose character is a dash. *)
Theorem positional_tokens_appended (args : list string) (i : nat)
    (arg prog : string) (rest : list string) (foundReqs : gmap string bool)
    (s : state) :
  positional arg →
  Forall positional rest →
  step args i arg foundReqs s
    = Continue i foundReqs (set_extraArgs (fun extra => app extra [arg]) s)
  ∧ Parse (prog :: rest) s
    = Some (checkRequired ∅ (set_extraArgs (fun extra => app extra rest) s))
  ∧ step args i "--" foundReqs s
    = match shortKeys s !! "-" with
      | Some o =>
          if isBool o
          then Continue i foundReqs (set_boolVals <[key o := true]> s)
          else lookaheadBranch args i "--" o foundReqs s
      | None => Halt (set_parseError (ERR_NO_OPT +:+ "--") s)
      end.
Proof.
  intros Ha HF. split; [by apply step_positional|].
  split; [|done].
  unfold Parse. destruct rest as [|a rest].
  - simpl. by rewrite set_extraArgs_nil.
  - change (length (prog :: a :: rest) <? 2)%nat with false. simpl negb.
    cbv iota.
    pose proof (mainLoop_positional (a :: rest) [prog]
                  (length (prog :: a :: rest)) ∅ s HF) as H.
    simpl app in H. simpl length in H. simpl length.
    rewrite H; [done | lia].
Qed.

Lemma positional_tokens_appended_witness :
  step ["prog"; "-"; "x"] 1 "-" ∅ init
    = Continue 1 ∅ (set_extraArgs (fun extra => app extra ["-"]) init)
  ∧ Parse ["prog"; "-"; "x"; ""] init
    = Some (checkRequired ∅
              (set_extraArgs (fun extra => app extra ["-"; "x"; ""]) init))
  ∧ step ["prog"; "-"; "x"] 1 "--" ∅ init
    = match shortKeys init !! "-" with
      | Some o =>
          if isBool o
          then Continue 1 ∅ (set_boolVals <[key o := true]> init)
          else lookaheadBranch ["prog"; "-"; "x"] 1 "--" o ∅ init
      | None => Halt (set_parseError (ERR_NO_OPT +:+ "--") init)
      end.
Proof.
  apply (positional_tokens_appended ["prog"; "-"; "x"] 1 "-" "prog"
           ["-"; "x"; ""] ∅ init).
  - right. reflexivity.
  - constructor; [right; reflexivity|].
    constructor; [left; reflexivity|].
    constructor; [left; reflexivity|]. constructor.
Defined.

(** C1, as stated, fails on the lone ["--"]: [^-.+] matches it, so it is
    a short option whose character is a dash, unknown to the registry. *)
Lemma lone_double_dash_not_positional :
  Parse ["prog"; "--"] init = Some (set_parseError "No such option: --" init)
  ∧ GetArgs (set_parseError "No such option: --" init) = []
  ∧ HasError (set_parseError "No such option: --" init) = true.
Proof. vm_compute. done. Qed.

(** ** The equals form *)

Lemma split_equals_nonempty s : split_equals s ≠ [].
Proof.
  destruct s as [|c r]; simpl; [done|].
  destruct (is_equals c); [done|]. by destruct (split_equals r).
Qed.

Lemma split_equals_noEquals s : noEquals s = true → split_equals s = [s].
Proof.
  induction s as [|c r IH]; simpl; [done|].
  intros H. apply andb_true_iff in H as [Hc Hr].
  apply negb_true_iff in Hc. rewrite Hc, IH; done.
Qed.

Lemma split_equals_app l r :
  noEquals l = true →
  split_equals (l +:+ String equals r) = l :: split_equals r.
Proof.
  induction l as [|c l IH]; simpl; intros H.
  - done.
  - apply andb_true_iff in H as [Hc Hl].
    apply negb_true_iff in Hc. rewrite Hc, IH; done.
Qed.

Lemma split_equals_length_app l r :
  length (split_equals (l +:+ String equals r))
  = (length (split_equals l) + length (split_equals r))%nat.
Proof.
  induction l as [|c l IH]; simpl.
  - done.
  - destruct (is_equals c); simpl; [by rewrite IH|].
    pose proof (split_equals_nonempty (l +:+ String equals r)) as H1.
    pose proof (split_equals_nonempty l) as H2.
    destruct (split_equals (l +:+ String equals r)) as [|h t]; [done|].
    destruct (split_equals l) as [|h' t']; [done|].
    simpl in *. done.
Qed.

Lemma split_equals_length_pos s : (1 ≤ length (split_equals s))%nat.
Proof.
  pose proof (split_equals_nonempty s).
  destruct (split_equals s); simpl; [done | lia].
Qed.

Lemma nonempty_length s : nonempty s = true ↔ (0 < String.length s)%nat.
Proof. destruct s; simpl; split; intros; try done; lia. Qed.

Lemma step_equals_single args i arg l r o foundReqs s :
  equalsForm arg = true →
  stripDashes arg = l +:+ String equals r →
  noEquals l = true → noEquals r = true → nonempty r = true →
  indexFor s arg !! l = Some o →
  isBool o = false →
  step args i arg foundReqs s
  = Continue i (markFoundByKey s (key o) foundReqs)
      (set_stringVals <[key o := r]> s).
Proof.
  intros He Hstrip Hl Hr Hne Hidx Hb.
  assert (singleDash arg = true) as Hs.
  { apply orb_true_iff in He as [H|H].
    - by apply singleDashEquals_singleDash.
    - by apply multiDash_singleDash, multiDashEquals_multiDash. }
  unfold equalsForm in He. unfold step. rewrite He.
  unfold getValForEqualsSignArg, splitEqualsArg.
  rewrite Hstrip, split_equals_app, split_equals_noEquals by done.
  apply nonempty_length in Hne as Hlen.
  assert ((0 <? String.length r)%nat = true) as -> by (by apply Nat.ltb_lt).
  assert ((String.length r <? 1)%nat = false) as Hlt by (apply Nat.ltb_ge; lia).
  simpl nth. unfold indexFor in Hidx. rewrite Hs.
  destruct (multiDash arg); rewrite Hidx, Hb, Hlt; done.
Qed.

Lemma step_equals_many args i arg l m r foundReqs s :
  equalsForm arg = true →
  stripDashes arg = l +:+ String equals (m +:+ String equals r) →
  step args i arg foundReqs s
  = Halt (set_parseError (ERR_MISSING_VAL +:+ arg) s).
Proof.
  intros He Hstrip. unfold equalsForm in He. unfold step. rewrite He.
  unfold getValForEqualsSignArg, splitEqualsArg. rewrite Hstrip.
  pose proof (split_equals_length_app l (m +:+ String equals r)) as H1.
  rewrite (split_equals_length_app m r) in H1.
  pose proof (split_equals_length_pos l).
  pose proof (split_equals_length_pos m).
  pose proof (split_equals_length_pos r).
  destruct (split_equals _) as [|p0 [|p1 [|p2 ps]]]; simpl in H1; try lia; done.
Qed.

(** C2 (as amended): an equals-form token whose dash-stripped text has
    exactly one ['='], a left part that resolves (in the long index for
    [--], in the short index otherwise) to a non-boolean option and a
    non-empty right part binds the right part under the option's key,
    without error; an equals-form token whose dash-stripped text has two or
    more ['='] is rejected with the missing-value error. *)
Theorem equals_form_binds_single_split (args : list string) (i : nat)
    (arg : string) (foundReqs : gmap string bool) (s : state) :
  equalsForm arg = true →
  (∀ l r o,
     stripDashes arg = l +:+ String equals r →
     noEquals l = true → noEquals r = true → nonempty r = true →
     indexFor s arg !! l = Some o → isBool o = false →
     step args i arg foundReqs s
     = Continue i (markFoundByKey s (key o) foundReqs)
         (set_stringVals <[key o := r]> s))
  ∧ (∀ l m r,
       stripDashes arg = l +:+ String equals (m +:+ String equals r) →
       step args i arg foundReqs s
       = Halt (set_parseError (ERR_MISSING_VAL +:+ arg) s)).
Proof.
  intros He. split.
  - intros l r o. by apply step_equals_single.
  - intros l m r. by apply step_equals_many.
Qed.

Lemma equals_form_binds_single_split_witness :
  step ["prog"; "--test=val2"] 1 "--test=val2" ∅ (registerOne "opt" false true "")
  = Continue 1 {["opt" := true]}
      (set_stringVals <["opt" := "val2"]> (registerOne "opt" false true ""))
  ∧ step ["prog"; "-t=a=b"] 1 "-t=a=b" ∅ (registerOne "opt" false true "")
    = Halt (set_parseError "Missing value for option: -t=a=b"
              (registerOne "opt" false true "")).
Proof.
  split.
  - apply (proj1 (equals_form_binds_single_split ["prog"; "--test=val2"] 1
                    "--test=val2" ∅ (registerOne "opt" false true "") eq_refl)
             "test" "val2" (mkOpt "opt" "test" "t" false true ""));
      reflexivity.
  - apply (proj2 (equals_form_binds_single_split ["prog"; "-t=a=b"] 1
                    "-t=a=b" ∅ (registerOne "opt" false true "") eq_refl)
             "t" "a" "b").
    reflexivity.
Defined.

(** C2, as stated, fails on a value that contains ['=']: [--xx=a=b] is cut
    in three parts, [splitEqualsArg] gives [nil], and nothing is bound. *)
Lemma equals_value_with_equals_rejected :
  let r := (RegisterOpt "x" "xx" "x" false false "" init).2 in
  (RegisterOpt "x" "xx" "x" false false "" init).1 = None
  ∧ Parse ["prog"; "--xx=a=b"] r
    = Some (set_parseError "Missing value for option: --xx=a=b" r)
  ∧ stringVals (set_parseError "Missing value for option: --xx=a=b" r) !! "x" = None.
Proof. vm_compute. done. Qed.

(** ** Short tokens of more than one character *)

(** Among characters that all resolve, either one is non-boolean or all
    are boolean. *)
Lemma resolved_boolean_cases sk ks :
  Forall (resolves sk) ks →
  Exists (nonBoolean sk) ks ∨ Forall (boolean sk) ks.
Proof.
  induction 1 as [|k ks [o Ho] _ [IH|IH]].
  - right. constructor.
  - left. by right.
  - destruct (isBool o) eqn:Hb.
    + right. constructor; [by exists o | done].
    + left. left. by exists o.
Qed.




Lemma shortForm_tests arg :
  shortForm arg = true →
  (singleDashEquals arg || multiDashEquals arg) = false
  ∧ multiDash arg = false ∧ singleDash arg = true.
Proof.
  unfold shortForm, equalsForm. intros H.
  apply andb_true_iff in H as [H H3]. apply andb_true_iff in H as [H1 H2].
  apply negb_true_iff in H1, H2. done.
Qed.



Lemma step_smushed args i arg foundReqs s :
  shortForm arg = true →
  (1 < String.length (stripDashes arg))%nat →
  ¬ Forall (resolves (shortKeys s)) (explode (stripDashes arg)) →
  ∃ c0 rest,
    stripDashes arg = String c0 rest
    ∧ step args i arg foundReqs s
      = match shortKeys s !! string_of_byte c0 with
        | None => Halt (set_parseError (ERR_NO_OPT +:+ string_of_byte c0) s)
        | Some o =>
            if isBool o
            then Halt (set_parseError (ERR_BOOL_WITH_VAL +:+ arg) s)
            else Continue i (markFound o foundReqs)
                   (set_stringVals <[key o := rest]> s)
        end.
Proof.
  intros Hf Hlen HnF. apply shortForm_tests in Hf as (H1 & H2 & H3).
  apply getMultiOptKeys_None in HnF.
  unfold step. rewrite H1, H2, H3, HnF.
  assert ((String.length (stripDashes arg) =? 1)%nat = false) as ->
    by (apply Nat.eqb_neq; lia).
  destruct (stripDashes arg) as [|c0 rest]; [simpl in Hlen; lia|].
  exists c0, rest. done.
Qed.



(** On ASCII text a character is a byte: [strings.Split(s, "")] gives the
    bytes and [string(b)] the one-byte string. *)
Lemma explode_ascii s : isAscii s = true → explode s = bytes s.
Proof.
  unfold explode. induction s as [|c r IH]; simpl; [done|].
  intros H. apply andb_true_iff in H as [Hc Hr].
  apply N.ltb_lt in Hc.
  unfold lead_info. assert ((byte_val c <? 194)%N = true) as ->
    by (apply N.ltb_lt; lia).
  simpl. by rewrite IH.
Qed.

Lemma string_of_byte_ascii c :
  (byte_val c <? 128)%N = true → string_of_byte c = String c EmptyString.
Proof. unfold string_of_byte. by intros ->. Qed.

(** ** Lookahead *)

Lemma longForm_tests arg :
  longForm arg = true →
  (singleDashEquals arg || multiDashEquals arg) = false ∧ multiDash arg = true.
Proof.
  unfold longForm, equalsForm. intros H.
  apply andb_true_iff in H as [H1 H2]. apply negb_true_iff in H1. done.
Qed.

Lemma step_bare_value args i arg o foundReqs s :
  bareValueOption s arg o →
  step args i arg foundReqs s = lookaheadBranch args i arg o foundReqs s.
Proof.
  intros [Hb [[Hf Ho] | (Hf & Hlen & Ho)]]; unfold step.
  - apply longForm_tests in Hf as [-> ->]. by rewrite Ho, Hb.
  - apply shortForm_tests in Hf as (-> & -> & ->).
    rewrite Hlen. simpl. by rewrite Ho, Hb.
Qed.

Lemma lookaheadForVal_valid args i v :
  validNext args i v → lookaheadForVal args i = v.
Proof.
  intros (Hv & _ & Hd). by rewrite lookaheadForVal_lookup, Hv, Hd.
Qed.

Lemma lookaheadForVal_invalid args i :
  (∀ v, ¬ validNext args i v) → lookaheadForVal args i = "".
Proof.
  intros H. rewrite lookaheadForVal_lookup.
  destruct (args !! (i + 1)%nat) as [v|] eqn:Hv; [|done].
  destruct (dashForm v) eqn:Hd; [done|].
  destruct v as [|c r]; [done|].
  exfalso. by apply (H (String c r)).
Qed.

Lemma step_lookahead_valid args i arg o foundReqs s v :
  bareValueOption s arg o → validNext args i v →
  step args i arg foundReqs s
  = Continue (i + 1) (markFound o foundReqs) (set_stringVals <[key o := v]> s).
Proof.
  intros Hb Hv. rewrite (step_bare_value _ _ _ o) by done.
  unfold lookaheadBranch. rewrite (lookaheadForVal_valid _ _ v) by done.
  destruct Hv as (_ & -> & _). done.
Qed.

Lemma step_lookahead_invalid args i arg o foundReqs s :
  bareValueOption s arg o → (∀ v, ¬ validNext args i v) →
  step args i arg foundReqs s
  = Halt (set_parseError (ERR_MISSING_VAL +:+ arg) s).
Proof.
  intros Hb Hv. rewrite (step_bare_value _ _ _ o) by done.
  unfold lookaheadBranch. by rewrite lookaheadForVal_invalid.
Qed.

(** C4 (as amended): for a non-boolean option written as a bare long token
    or a bare short token of one character, the following token is consumed
    as the value exactly when it exists, is not the empty string and is not
    a dash form; the value is then bound, the option marked found if
    required, and the loop goes on two positions further, so the value token
    is never classified.  Otherwise the scan stops with the missing-value
    error. *)
Theorem lookahead_consumes_next (args : list string) (i fuel : nat)
    (arg : string) (o : opt) (foundReqs : gmap string bool) (s : state) :
  bareValueOption s arg o →
  args !! i = Some arg →
  (∀ v, validNext args i v →
        step args i arg foundReqs s
        = Continue (i + 1) (markFound o foundReqs)
            (set_stringVals <[key o := v]> s)
        ∧ mainLoop (S fuel) args i foundReqs s
          = mainLoop fuel args (i + 2) (markFound o foundReqs)
              (set_stringVals <[key o := v]> s))
  ∧ ((∀ v, ¬ validNext args i v) →
        step args i arg foundReqs s
        = Halt (set_parseError (ERR_MISSING_VAL +:+ arg) s)
        ∧ mainLoop (S fuel) args i foundReqs s
          = Some (Aborted i (set_parseError (ERR_MISSING_VAL +:+ arg) s))).
Proof.
  intros Hb Ha. split.
  - intros v Hv.
    pose proof (step_lookahead_valid args i arg o foundReqs s v Hb Hv) as Hs.
    split; [done|]. simpl. rewrite Ha, Hs.
    by replace (i + 1 + 1)%nat with (i + 2)%nat by lia.
  - intros Hv.
    pose proof (step_lookahead_invalid args i arg o foundReqs s Hb Hv) as Hs.
    split; [done|]. simpl. by rewrite Ha, Hs.
Qed.

Lemma lookahead_consumes_next_witness :
  mainLoop 3 ["prog"; "--test"; "val4"; "x"] 1 ∅ exampleRegistry
  = mainLoop 2 ["prog"; "--test"; "val4"; "x"] 3 ∅
      (set_stringVals <["opt" := "val4"]> exampleRegistry).
Proof.
  assert (bareValueOption exampleRegistry "--test"
            (mkOpt "opt" "test" "t" false false "")) as Hb.
  { split; [reflexivity|]. left. split; reflexivity. }
  apply (proj1 (lookahead_consumes_next ["prog"; "--test"; "val4"; "x"] 1 2
                  "--test" (mkOpt "opt" "test" "t" false false "") ∅
                  exampleRegistry Hb eq_refl) "val4").
  repeat split.
Defined.

(** C4, as stated, fails when the following token is the empty string: it
    exists and is no dash form, yet it is not consumed. *)
Lemma empty_next_token_not_consumed :
  ["prog"; "--test"; ""] !! 2%nat = Some ""
  ∧ dashForm "" = false
  ∧ Parse ["prog"; "--test"; ""] exampleRegistry
    = Some (set_parseError "Missing value for option: --test" exampleRegistry)
  ∧ stringVals (set_parseError "Missing value for option: --test" exampleRegistry)
      !! "opt" = None.
Proof. vm_compute. done. Qed.

(** C10: for a non-boolean option written as a bare long token or a bare
    short token of one character, a following token that is the empty string
    gives the missing-value error, as the absence of a following token does:
    in both cases [lookaheadForVal] returns the empty string.  No turn of
    the loop that goes on after such a token has bound the empty string. *)
Theorem empty_lookahead_is_missing_value (args : list string) (i : nat)
    (arg : string) (o : opt) (foundReqs : gmap string bool) (s : state) :
  bareValueOption s arg o →
  (args !! (i + 1)%nat = Some "" →
     lookaheadForVal args i = ""
     ∧ step args i arg foundReqs s
       = Halt (set_parseError (ERR_MISSING_VAL +:+ arg) s))
  ∧ (args !! (i + 1)%nat = None →
     lookaheadForVal args i = ""
     ∧ step args i arg foundReqs s
       = Halt (set_parseError (ERR_MISSING_VAL +:+ arg) s))
  ∧ (∀ i' foundReqs' s',
       step args i arg foundReqs s = Continue i' foundReqs' s' →
       ∃ v, nonempty v = true ∧ lookaheadForVal args i = v
            ∧ stringVals s' = <[key o := v]> (stringVals s)).
Proof.
  intros Hb. rewrite (step_bare_value _ _ _ o) by done.
  unfold lookaheadBranch. repeat split.
  - rewrite lookaheadForVal_lookup, H. done.
  - rewrite lookaheadForVal_lookup, H. done.
  - rewrite lookaheadForVal_lookup, H. done.
  - rewrite lookaheadForVal_lookup, H. done.
  - intros i' f' s'.
    destruct (nonempty (lookaheadForVal args i)) eqn:Hne; simpl; [|done].
    intros [= <- <- <-]. by exists (lookaheadForVal args i).
Qed.

Lemma empty_lookahead_is_missing_value_witness :
  lookaheadForVal ["prog"; "-t"; ""] 1 = ""
  ∧ step ["prog"; "-t"; ""] 1 "-t" ∅ exampleRegistry
    = Halt (set_parseError "Missing value for option: -t" exampleRegistry).
Proof.
  assert (bareValueOption exampleRegistry "-t"
            (mkOpt "opt" "test" "t" false false "")) as Hb.
  { split; [reflexivity|]. right. repeat split. }
  apply (proj1 (empty_lookahead_is_missing_value ["prog"; "-t"; ""] 1 "-t"
                  (mkOpt "opt" "test" "t" false false "") ∅
                  exampleRegistry Hb)).
  reflexivity.
Defined.

(** ** A registry of one option *)

Lemma RegisterOpt_one k b req u :
  (b && req) = false →
  RegisterOpt k "test" "t" b req u init = (None, oneState k b req u).
Proof.
  intros Hb.
  unfold RegisterOpt, call, RegisterOpt_body.
  unfold mbind, proc_bind, bind, when, read, write, return_, pure.
  change (stripDashes "test") with "test".
  change (stripDashes "t") with "t".
  cbn [isBool required short long key nonempty String.length Nat.ltb Nat.leb
       andb negb].
  rewrite Hb.
  cbn [opts shortKeys longKeys init].
  rewrite !lookup_empty. cbn [present].
  by destruct req.
Qed.

Lemma registerOne_oneState k req u :
  registerOne k false req u = oneState k false req u.
Proof. unfold registerOne. by rewrite RegisterOpt_one. Qed.

Lemma mainLoop_continue fuel args i arg foundReqs s i' foundReqs' s' :
  args !! i = Some arg →
  step args i arg foundReqs s = Continue i' foundReqs' s' →
  mainLoop (S fuel) args i foundReqs s
  = mainLoop fuel args (i' + 1) foundReqs' s'.
Proof. intros Ha Hs. simpl. by rewrite Ha, Hs. Qed.

Lemma mainLoop_end fuel (args : list string) i foundReqs s :
  args !! i = None →
  mainLoop fuel args i foundReqs s = Some (Completed foundReqs s).
Proof. intros Ha. destruct fuel; simpl; by rewrite Ha. Qed.

Lemma checkRequired_one k (foundReqs : gmap string bool) s :
  parseError s = "" →
  (requiredOpts s = ∅
   ∨ (requiredOpts s = {[k := true]} ∧ is_Some (foundReqs !! k))) →
  checkRequired foundReqs s = s.
Proof.
  intros He [Hr | [Hr [b Hf]]]; unfold checkRequired; rewrite Hr.
  - rewrite map_size_empty. done.
  - rewrite map_size_singleton. simpl.
    unfold getMissingReqOptsError.
    rewrite map_to_list_singleton. simpl.
    rewrite filter_cons. rewrite decide_False by (rewrite Hf; done).
    rewrite filter_nil. simpl. destruct s; simpl in *; by subst.
Qed.

Lemma Parse_one_value k req u (args : list string) arg i' foundReqs' v :
  args !! 1%nat = Some arg →
  step args 1 arg ∅ (oneState k false req u)
  = Continue i' foundReqs' (set_stringVals <[k := v]> (oneState k false req u)) →
  args !! (i' + 1)%nat = None →
  (req = true → is_Some (foundReqs' !! k)) →
  Parse args (oneState k false req u)
  = Some (set_stringVals <[k := v]> (oneState k false req u)).
Proof.
  intros Ha Hs Hend Hreq. unfold Parse.
  apply lookup_lt_Some in Ha as Hlen.
  assert ((length args <? 2)%nat = false) as -> by (apply Nat.ltb_ge; lia).
  destruct (length args) as [|fuel] eqn:El; [lia|].
  rewrite (mainLoop_continue _ _ _ _ _ _ _ _ _ Ha Hs).
  rewrite mainLoop_end by done.
  rewrite (checkRequired_one k); [done | done |].
  simpl. destruct req; [right | left]; auto.
Qed.

Lemma markFound_one k req u (f : gmap string bool) :
  req = true → is_Some (markFound (oneOption k false req u) f !! k).
Proof. intros ->. unfold markFound. simpl. rewrite lookup_insert_eq. eauto. Qed.

Lemma markFoundByKey_one k req u (f : gmap string bool) :
  req = true → is_Some (markFoundByKey (oneState k false req u) k f !! k).
Proof.
  intros ->. unfold markFoundByKey. simpl. rewrite lookup_singleton_eq. simpl.
  rewrite lookup_insert_eq. eauto.
Qed.

Lemma Parse_short_equals k req u :
  Parse ["prog"; "-t=val1"] (oneState k false req u)
  = Some (set_stringVals <[k := "val1"]> (oneState k false req u)).
Proof.
  eapply (Parse_one_value k req u _ "-t=val1" 1); [done | | done |].
  - apply (step_equals_single _ _ _ "t" "val1" (oneOption k false req u)); done.
  - apply markFoundByKey_one.
Qed.

Lemma Parse_long_equals k req u :
  Parse ["prog"; "--test=val2"] (oneState k false req u)
  = Some (set_stringVals <[k := "val2"]> (oneState k false req u)).
Proof.
  eapply (Parse_one_value k req u _ "--test=val2" 1); [done | | done |].
  - apply (step_equals_single _ _ _ "test" "val2" (oneOption k false req u)); done.
  - apply markFoundByKey_one.
Qed.

Lemma Parse_short_lookahead k req u :
  Parse ["prog"; "-t"; "val3"] (oneState k false req u)
  = Some (set_stringVals <[k := "val3"]> (oneState k false req u)).
Proof.
  eapply (Parse_one_value k req u _ "-t" 2); [done | | done |].
  - apply (step_lookahead_valid ["prog"; "-t"; "val3"] 1 "-t"
             (oneOption k false req u) ∅ (oneState k false req u) "val3").
    + split; [done|]. right. done.
    + done.
  - apply markFound_one.
Qed.

Lemma Parse_long_lookahead k req u :
  Parse ["prog"; "--test"; "val4"] (oneState k false req u)
  = Some (set_stringVals <[k := "val4"]> (oneState k false req u)).
Proof.
  eapply (Parse_one_value k req u _ "--test" 2); [done | | done |].
  - apply (step_lookahead_valid ["prog"; "--test"; "val4"] 1 "--test"
             (oneOption k false req u) ∅ (oneState k false req u) "val4").
    + split; [done|]. left. done.
    + done.
  - apply markFound_one.
Qed.

Lemma Parse_smushed k req u :
  Parse ["prog"; "-tval5"] (oneState k false req u)
  = Some (set_stringVals <[k := "val5"]> (oneState k false req u)).
Proof.
  eapply (Parse_one_value k req u _ "-tval5" 1); [done | | done |].
  - destruct (step_smushed ["prog"; "-tval5"] 1 "-tval5" ∅
                (oneState k false req u)) as (c0 & rest & Hs & ->).
    + done.
    + vm_compute; lia.
    + intros HF. apply Forall_cons in HF as [_ HF].
      apply Forall_cons in HF as [[o Ho] _]. done.
    + injection Hs as <- <-. done.
  - apply markFound_one.
Qed.

Lemma scansTo_bound k req u args v :
  Parse args (oneState k false req u)
  = Some (set_stringVals <[k := v]> (oneState k false req u)) →
  scansTo (oneState k false req u) args k v.
Proof.
  intros H. eexists. split; [exact H|]. split; [done|].
  unfold GetString. simpl. by rewrite lookup_insert_eq.
Qed.

(** C5: with one non-boolean option of short form [t] and long form
    [test] registered (under any key, required or not), each of the five
    spellings, scanned alone from the freshly registered state, ends without
    error and binds its value under the option's key. *)
Theorem five_value_forms_bind (k u : string) (req : bool) :
  (RegisterOpt k "test" "t" false req u init).1 = None
  ∧ scansTo (registerOne k false req u) ["prog"; "-t=val1"] k "val1"
  ∧ scansTo (registerOne k false req u) ["prog"; "--test=val2"] k "val2"
  ∧ scansTo (registerOne k false req u) ["prog"; "-t"; "val3"] k "val3"
  ∧ scansTo (registerOne k false req u) ["prog"; "--test"; "val4"] k "val4"
  ∧ scansTo (registerOne k false req u) ["prog"; "-tval5"] k "val5".
Proof.
  rewrite registerOne_oneState, RegisterOpt_one by done.
  split; [done|].
  repeat split; apply scansTo_bound.
  - apply Parse_short_equals.
  - apply Parse_long_equals.
  - apply Parse_short_lookahead.
  - apply Parse_long_lookahead.
  - apply Parse_smushed.
Qed.

(** ** The required-option check *)

Lemma step_continue_registry args i arg foundReqs s i' foundReqs' s' :
  step args i arg foundReqs s = Continue i' foundReqs' s' →
  opts s' = opts s ∧ shortKeys s' = shortKeys s ∧ longKeys s' = longKeys s
  ∧ requiredOpts s' = requiredOpts s.
Proof.
  unfold step, lookaheadBranch.
  repeat case_match; intros [=]; subst; simpl; try done.
  match goal with H : setAllBool _ _ = Some _ |- _ =>
    apply setAllBool_shortKeys in H end.
  tauto.
Qed.

Lemma mainLoop_completed_registry fuel args i foundReqs s foundReqs' s' :
  mainLoop fuel args i foundReqs s = Some (Completed foundReqs' s') →
  opts s' = opts s ∧ requiredOpts s' = requiredOpts s.
Proof.
  revert i foundReqs s. induction fuel as [|fuel IH]; intros i f s; simpl.
  - destruct (args !! i); [done|]. by intros [= <- <-].
  - destruct (args !! i) as [arg|]; [|by intros [= <- <-]].
    destruct (step args i arg f s) as [s1|i1 f1 s1|] eqn:Hs; try done.
    intros H. apply IH in H as [H1 H2].
    apply step_continue_registry in Hs as (Ho & _ & _ & Hr).
    split; congruence.
Qed.








(** ** Fail-fast *)

(** The loop body reads [args] only at the next position. *)
Lemma step_args_next args args' i arg foundReqs s :
  args !! (i + 1)%nat = args' !! (i + 1)%nat →
  step args i arg foundReqs s = step args' i arg foundReqs s.
Proof.
  intros H. unfold step, lookaheadBranch.
  by rewrite !lookaheadForVal_lookup, H.
Qed.

(** A turn that leaves the loop variable in place has not read [args]. *)
Lemma step_same_index args args' i arg foundReqs s foundReqs' s' :
  step args i arg foundReqs s = Continue i foundReqs' s' →
  step args' i arg foundReqs s = Continue i foundReqs' s'.
Proof.
  unfold step, lookaheadBranch.
  repeat case_match; intros [=]; subst; try done; lia.
Qed.

Lemma getValForEqualsSignArg_error s arg k v err :
  getValForEqualsSignArg s arg = Some (k, v, Some err) → nonempty err = true.
Proof.
  unfold getValForEqualsSignArg.
  repeat case_match; intros [=]; subst; try done;
    repeat match goal with H : inl _ = inl _ |- _ => injection H as <- end;
    simplify_eq; done.
Qed.

(** A [return] inside the loop writes a non-empty error and nothing else. *)
Lemma step_halt_error args i arg foundReqs s s' :
  step args i arg foundReqs s = Halt s' →
  ∃ e, s' = set_parseError e s ∧ nonempty e = true.
Proof.
  unfold step, lookaheadBranch.
  destruct (singleDashEquals arg || multiDashEquals arg).
  - destruct (getValForEqualsSignArg s arg) as [[[k v] [err|]]|] eqn:E; try done.
    intros [= <-]. exists err. split; [done|].
    by eapply getValForEqualsSignArg_error.
  - repeat case_match; intros [=]; subst; eexists; (split; [reflexivity|done]).
Qed.

Lemma mainLoop_more_fuel fuel fuel' args i foundReqs s r :
  mainLoop fuel args i foundReqs s = Some r →
  (fuel ≤ fuel')%nat →
  mainLoop fuel' args i foundReqs s = Some r.
Proof.
  revert fuel' i foundReqs s.
  induction fuel as [|fuel IH]; intros fuel' i f s; simpl.
  - destruct (args !! i) eqn:Ha; [done|].
    intros H _. by rewrite mainLoop_end.
  - intros H Hle. destruct fuel' as [|fuel']; [lia|]. simpl.
    destruct (args !! i) as [arg|]; [|done].
    destruct (step args i arg f s) as [s1|i1 f1 s1|]; try done.
    apply IH; [done | lia].
Qed.

Lemma mainLoop_aborted_prefix fuel args j foundReqs s i s' :
  mainLoop fuel args j foundReqs s = Some (Aborted i s') →
  (j ≤ i)%nat
  ∧ ∃ arg found_i s_i,
      args !! i = Some arg
      ∧ mainLoop fuel (take i args) j foundReqs s = Some (Completed found_i s_i)
      ∧ step args i arg found_i s_i = Halt s'.
Proof.
  revert j foundReqs s.
  induction fuel as [|fuel IH]; intros j f s; simpl.
  - by destruct (args !! j).
  - destruct (args !! j) as [arg|] eqn:Ha; [|done].
    destruct (step args j arg f s) as [s1|j1 f1 s1|] eqn:Hs; [| |done].
    + intros [= <- <-]. split; [done|].
      exists arg, f, s. rewrite lookup_take_ge by done. done.
    + intros H. apply IH in H as (Hle & a & fi & si & Hai & Hrun & Hhalt).
      pose proof (step_continue_index _ _ _ _ _ _ _ _ Hs) as Hj1.
      split; [lia|]. exists a, fi, si. split; [done|]. split; [|done].
      rewrite lookup_take_lt by lia. rewrite Ha.
      assert (step (take i args) j arg f s = Continue j1 f1 s1) as ->; [|done].
      destruct Hj1 as [-> | ->].
      * by apply (step_same_index args).
      * rewrite <- Hs. apply step_args_next.
        rewrite lookup_take_lt by lia. done.
Qed.

Lemma checkRequired_values foundReqs s :
  boolVals (checkRequired foundReqs s) = boolVals s
  ∧ stringVals (checkRequired foundReqs s) = stringVals s
  ∧ extraArgs (checkRequired foundReqs s) = extraArgs s.
Proof. unfold checkRequired. by destruct (_ <? _)%nat. Qed.

(** C6: when the loop stops at token [i], the tokens before [i] have all
    been gone through without error (the scan of the sequence cut before
    [i] completes), the state returned by [Parse] is the state those tokens
    left with the error of token [i] written in it, non-empty, and the
    boolean values, string values and positional arguments are those of a
    scan of the tokens before [i] alone. *)
Theorem fail_fast (args : list string) (s : state) (i : nat) (s' : state) :
  mainLoop (length args) args 1 ∅ s = Some (Aborted i s') →
  ∃ arg found_i s_i e,
    (1 ≤ i)%nat
    ∧ args !! i = Some arg
    ∧ mainLoop (length (take i args)) (take i args) 1 ∅ s
      = Some (Completed found_i s_i)
    ∧ step args i arg found_i s_i = Halt s'
    ∧ s' = set_parseError e s_i
    ∧ nonempty e = true
    ∧ Parse args s = Some s'
    ∧ ∃ s_p, Parse (take i args) s = Some s_p
             ∧ boolVals s' = boolVals s_p
             ∧ stringVals s' = stringVals s_p
             ∧ extraArgs s' = extraArgs s_p.
Proof.
  intros Hloop.
  destruct (mainLoop_aborted_prefix _ _ _ _ _ _ _ Hloop)
    as (Hle & arg & fi & si & Ha & Hrun & Hhalt).
  destruct (step_halt_error _ _ _ _ _ _ Hhalt) as (e & -> & He).
  apply lookup_lt_Some in Ha as Hlt.
  assert (length (take i args) = i) as Hlen by (rewrite length_take; lia).
  assert (mainLoop (length (take i args)) (take i args) 1 ∅ s
          = Some (Completed fi si)) as Hrun'.
  { destruct (mainLoop_total (length (take i args)) (take i args) 1 ∅ s)
      as [r Hr]; [lia|].
    rewrite Hr. f_equal.
    apply (mainLoop_more_fuel _ (length args)) in Hr; [|lia].
    congruence. }
  exists arg, fi, si, e. repeat split; try done.
  - unfold Parse.
    assert ((length args <? 2)%nat = false) as -> by (apply Nat.ltb_ge; lia).
    by rewrite Hloop.
  - unfold Parse. rewrite Hrun'.
    destruct (length (take i args) <? 2)%nat eqn:E.
    + assert (i = 1)%nat as -> by (apply Nat.ltb_lt in E; lia).
      rewrite mainLoop_end in Hrun' by (rewrite lookup_take_ge; [done | lia]).
      injection Hrun' as <- <-.
      exists (checkRequired ∅ s). split; [done|].
      destruct (checkRequired_values ∅ s) as (-> & -> & ->). done.
    + exists (checkRequired fi si). split; [done|].
      destruct (checkRequired_values fi si) as (-> & -> & ->). done.
Qed.

Lemma fail_fast_witness :
  ∃ arg found_i s_i e,
    (1 ≤ 2)%nat
    ∧ ["prog"; "-t=1"; "--bogus"; "--test="] !! 2%nat = Some arg
    ∧ mainLoop (length (take 2 ["prog"; "-t=1"; "--bogus"; "--test="]))
        (take 2 ["prog"; "-t=1"; "--bogus"; "--test="]) 1 ∅ exampleRegistry
      = Some (Completed found_i s_i)
    ∧ step ["prog"; "-t=1"; "--bogus"; "--test="] 2 arg found_i s_i
      = Halt (set_parseError "No such option: --bogus"
                (set_stringVals <["opt" := "1"]> exampleRegistry))
    ∧ set_parseError "No such option: --bogus"
        (set_stringVals <["opt" := "1"]> exampleRegistry)
      = set_parseError e s_i
    ∧ nonempty e = true
    ∧ Parse ["prog"; "-t=1"; "--bogus"; "--test="] exampleRegistry
      = Some (set_parseError "No such option: --bogus"
                (set_stringVals <["opt" := "1"]> exampleRegistry))
    ∧ ∃ s_p, Parse (take 2 ["prog"; "-t=1"; "--bogus"; "--test="])
               exampleRegistry = Some s_p
             ∧ boolVals (set_parseError "No such option: --bogus"
                           (set_stringVals <["opt" := "1"]> exampleRegistry))
               = boolVals s_p
             ∧ stringVals (set_parseError "No such option: --bogus"
                             (set_stringVals <["opt" := "1"]> exampleRegistry))
               = stringVals s_p
             ∧ extraArgs (set_parseError "No such option: --bogus"
                            (set_stringVals <["opt" := "1"]> exampleRegistry))
               = extraArgs s_p.
Proof.
  apply (fail_fast ["prog"; "-t=1"; "--bogus"; "--test="] exampleRegistry 2
           (set_parseError "No such option: --bogus"
              (set_stringVals <["opt" := "1"]> exampleRegistry))).
  vm_compute. reflexivity.
Defined.

(** ** Registration *)

Ltac run_proc :=
  unfold RegisterOpt, call, RegisterOpt_body;
  unfold mbind, proc_bind, bind, when, read, write, return_, pure;
  cbn [isBool required short long key usage].

(** [RegisterOpt] is the check followed, when it passes, by the four
    insertions. *)
Lemma RegisterOpt_eq key0 long0 short0 b r u s :
  RegisterOpt key0 long0 short0 b r u s
  = match registrationCheck
            (mkOpt key0 (stripDashes long0) (stripDashes short0) b r u) s with
    | Some e => (Some e, s)
    | None =>
        (None, insertOpt
                 (mkOpt key0 (stripDashes long0) (stripDashes short0) b r u) s)
    end.
Proof.
  run_proc. unfold registrationCheck, insertOpt.
  cbn [isBool required short long key usage].
  destruct (b && r); [done|].
  destruct (negb (nonempty (stripDashes short0))
            && negb (nonempty (stripDashes long0))); [done|].
  destruct (nonempty (stripDashes short0) && _); [done|].
  destruct (nonempty (stripDashes long0) && _); [done|].
  destruct (present (opts s !! key0)); [done|].
  destruct (nonempty (stripDashes short0)); cbn [andb].
  - destruct (present (shortKeys s !! stripDashes short0)); [done|].
    destruct (nonempty (stripDashes long0)); cbn [andb].
    + destruct (present (longKeys s !! stripDashes long0)); [done|].
      by destruct r.
    + by destruct r.
  - destruct (nonempty (stripDashes long0)); cbn [andb].
    + destruct (present (longKeys s !! stripDashes long0)); [done|].
      by destruct r.
    + by destruct r.
Qed.

Lemma registrationCheck_errors key0 long0 short0 b r u s e :
  registrationCheck
    (mkOpt key0 (stripDashes long0) (stripDashes short0) b r u) s = Some e →
  e ∈ registrationErrors key0 long0 short0.
Proof.
  unfold registrationCheck, registrationErrors.
  cbn [isBool required short long key usage].
  repeat case_match; intros [=]; subst; set_solver.
Qed.

(** C8: a registration that returns an error, whichever of the seven it
    is, returns the state it was given: the canonical, short and long tables
    and the required set (and every other package variable) are unchanged,
    so whatever was registered before is still there. *)
Theorem register_error_leaves_state (key0 long0 short0 : string) (b r : bool)
    (u : string) (s : state) (e : string) (s' : state) :
  RegisterOpt key0 long0 short0 b r u s = (Some e, s') →
  s' = s
  ∧ e ∈ registrationErrors key0 long0 short0
  ∧ (∀ k o, opts s !! k = Some o → opts s' !! k = Some o)
  ∧ (∀ k o, shortKeys s !! k = Some o → shortKeys s' !! k = Some o)
  ∧ (∀ k o, longKeys s !! k = Some o → longKeys s' !! k = Some o).
Proof.
  rewrite RegisterOpt_eq.
  destruct (registrationCheck _ s) as [e'|] eqn:E; [|done].
  intros [= -> ->]. split; [done|].
  split; [by eapply registrationCheck_errors|]. done.
Qed.

Lemma register_error_leaves_state_witness :
  registerOne "opt" false false "" = registerOne "opt" false false ""
  ∧ "An option was already registered with key: opt"
    ∈ registrationErrors "opt" "other" "o"
  ∧ (∀ k o, opts (registerOne "opt" false false "") !! k = Some o →
            opts (registerOne "opt" false false "") !! k = Some o)
  ∧ (∀ k o, shortKeys (registerOne "opt" false false "") !! k = Some o →
            shortKeys (registerOne "opt" false false "") !! k = Some o)
  ∧ (∀ k o, longKeys (registerOne "opt" false false "") !! k = Some o →
            longKeys (registerOne "opt" false false "") !! k = Some o).
Proof.
  apply (register_error_leaves_state "opt" "other" "o" false false ""
           (registerOne "opt" false false "")
           "An option was already registered with key: opt"
           (registerOne "opt" false false "")).
  vm_compute. reflexivity.
Defined.

(** ** Consistency of the registry tables *)

Lemma consistent_init : consistent init.
Proof.
  split; simpl.
  - intros k o H. by rewrite lookup_empty in H.
  - intros sh o. rewrite lookup_empty. split; [done|].
    intros (_ & _ & H). by rewrite lookup_empty in H.
  - intros lg o. rewrite lookup_empty. split; [done|].
    intros (_ & _ & H). by rewrite lookup_empty in H.
  - intros k. rewrite lookup_empty. split.
    + by intros [? ?].
    + intros (o & H & _). by rewrite lookup_empty in H.
Qed.

Lemma registrationCheck_passed o s :
  registrationCheck o s = None →
  opts s !! key o = None
  ∧ (nonempty (short o) = true → shortKeys s !! short o = None)
  ∧ (nonempty (long o) = true → longKeys s !! long o = None).
Proof.
  unfold registrationCheck.
  destruct (isBool o && required o); [done|].
  destruct (negb _ && negb _); [done|].
  destruct (nonempty (short o) && (1 <? _)%nat); [done|].
  destruct (nonempty (long o) && (_ <? 2)%nat); [done|].
  destruct (present (opts s !! key o)) eqn:H1; [done|].
  destruct (nonempty (short o) && present _) eqn:H2; [done|].
  destruct (nonempty (long o) && present _) eqn:H3; [done|].
  intros _. apply present_false in H1. split; [done|].
  split; intros Hn; [rewrite Hn in H2 | rewrite Hn in H3];
    simpl in *; by apply present_false.
Qed.

Lemma indexed_empty f : indexed f ∅ ∅.
Proof.
  intros x o. rewrite lookup_empty. split; [done|].
  intros (_ & _ & H). by rewrite lookup_empty in H.
Qed.

Lemma indexed_insert f idx canon o :
  indexed f idx canon →
  canon !! key o = None →
  (nonempty (f o) = true → idx !! f o = None) →
  indexed f (if nonempty (f o) then <[f o := o]> idx else idx)
    (<[key o := o]> canon).
Proof.
  intros Hi Hfresh Hfree x o'.
  assert (idx !! x = Some o' → key o ≠ key o') as Hother.
  { intros H Heq. apply Hi in H as (_ & _ & H). congruence. }
  destruct (decide (key o = key o')) as [Heq|Hne].
  - rewrite Heq, lookup_insert_eq. split.
    + destruct (nonempty (f o)) eqn:Hn.
      * destruct (decide (f o = x)) as [<-|Hx].
        -- rewrite lookup_insert_eq. by intros [= <-].
        -- rewrite lookup_insert_ne by done. intros H. by apply Hother in H.
      * intros H. by apply Hother in H.
    + intros (Hx & <- & [= <-]). by rewrite Hx, lookup_insert_eq.
  - rewrite (lookup_insert_ne canon) by done.
    assert ((if nonempty (f o) then <[f o := o]> idx else idx) !! x = Some o'
            ↔ idx !! x = Some o') as ->; [|apply Hi].
    destruct (nonempty (f o)) eqn:Hn; [|done].
    destruct (decide (f o = x)) as [<-|Hx].
    + rewrite lookup_insert_eq, (Hfree eq_refl). split; [|done].
      intros [= <-]. done.
    + by rewrite lookup_insert_ne.
Qed.

Lemma indexed_delete f idx canon o :
  (∀ k o', canon !! k = Some o' → key o' = k) →
  indexed f idx canon →
  canon !! key o = Some o →
  indexed f (if nonempty (f o) then delete (f o) idx else idx)
    (delete (key o) canon).
Proof.
  intros Hk Hi Ho x o'.
  destruct (decide (key o = key o')) as [Heq|Hne].
  - rewrite Heq, lookup_delete_eq. split; [|by intros (_ & _ & ?)].
    intros H.
    assert (idx !! x = Some o') as H'.
    { destruct (nonempty (f o)); [|done].
      destruct (decide (f o = x)) as [<-|Hx].
      - by rewrite lookup_delete_eq in H.
      - by rewrite lookup_delete_ne in H. }
    apply Hi in H' as (Hx & Hf & Ho').
    assert (o' = o) as -> by congruence.
    rewrite Hf, Hx, <- Hf, lookup_delete_eq in H. done.
  - rewrite (lookup_delete_ne canon) by done.
    assert ((if nonempty (f o) then delete (f o) idx else idx) !! x = Some o'
            ↔ idx !! x = Some o') as ->; [|apply Hi].
    destruct (nonempty (f o)) eqn:Hn; [|done].
    destruct (decide (f o = x)) as [<-|Hx].
    + rewrite lookup_delete_eq. split; [done|].
      intros H. assert (idx !! f o = Some o) as H2 by (by apply Hi).
      congruence.
    + by rewrite lookup_delete_ne.
Qed.

Lemma consistent_insertOpt o s :
  consistent s → registrationCheck o s = None → consistent (insertOpt o s).
Proof.
  intros [Hk Hs Hl Hr] Hc.
  apply registrationCheck_passed in Hc as (Hko & Hso & Hlo).
  split; unfold insertOpt; simpl.
  - intros k o'. destruct (decide (key o = k)) as [<-|Hne].
    + rewrite lookup_insert_eq. by intros [= <-].
    + rewrite lookup_insert_ne by done. apply Hk.
  - by apply indexed_insert.
  - by apply indexed_insert.
  - intros k. destruct (decide (key o = k)) as [<-|Hne].
    + rewrite lookup_insert_eq. destruct (required o) eqn:Hreq.
      * rewrite lookup_insert_eq. split; [|by eauto].
        intros _. by exists o.
      * rewrite Hr. split.
        -- intros (o' & H & _). congruence.
        -- intros (o' & [= <-] & H). congruence.
    + rewrite lookup_insert_ne by done.
      destruct (required o); [rewrite lookup_insert_ne by done|]; apply Hr.
Qed.

(** The four tables after [Clear] of a registered key. *)
Lemma Clear_registered k s o :
  opts s !! k = Some o →
  opts (Clear k s) = delete k (opts s)
  ∧ shortKeys (Clear k s)
    = (if nonempty (short o) then delete (short o) (shortKeys s)
       else shortKeys s)
  ∧ longKeys (Clear k s)
    = (if nonempty (long o) then delete (long o) (longKeys s) else longKeys s)
  ∧ requiredOpts (Clear k s)
    = (if required o then delete (key o) (requiredOpts s) else requiredOpts s).
Proof.
  intros Ho. unfold Clear. rewrite Ho.
  destruct (nonempty (short o)), (nonempty (long o)), (required o), (isBool o);
    simpl; repeat case_match; done.
Qed.

Lemma Clear_absent k s : opts s !! k = None → Clear k s = s.
Proof. intros Ho. unfold Clear. by rewrite Ho. Qed.

Lemma consistent_Clear k s : consistent s → consistent (Clear k s).
Proof.
  intros Hc. destruct (opts s !! k) as [o|] eqn:Ho.
  2:{ by rewrite Clear_absent. }
  destruct (Clear_registered k s o Ho) as (E1 & E2 & E3 & E4).
  destruct Hc as [Hk Hs Hl Hr].
  assert (key o = k) as Hkey by (by apply Hk). subst k.
  split; rewrite ?E1, ?E2, ?E3, ?E4.
  - intros k o'. destruct (decide (key o = k)) as [<-|Hne].
    + by rewrite lookup_delete_eq.
    + rewrite lookup_delete_ne by done. apply Hk.
  - by apply indexed_delete.
  - by apply indexed_delete.
  - intros k. destruct (decide (key o = k)) as [<-|Hne].
    + rewrite lookup_delete_eq. split; [|by intros (? & ? & _)].
      destruct (required o) eqn:Hreq.
      * rewrite lookup_delete_eq. by intros [? ?].
      * rewrite Hr. intros (o' & H & H'). congruence.
    + rewrite lookup_delete_ne by done.
      destruct (required o); [rewrite lookup_delete_ne by done|]; apply Hr.
Qed.

Lemma consistent_registry_only s s' :
  opts s' = opts s → shortKeys s' = shortKeys s → longKeys s' = longKeys s →
  requiredOpts s' = requiredOpts s →
  consistent s → consistent s'.
Proof.
  intros E1 E2 E3 E4 [Hk Hs Hl Hr].
  split; rewrite ?E1, ?E2, ?E3, ?E4; done.
Qed.

Lemma consistent_ClearAll s : consistent s → consistent (ClearAll s).
Proof.
  intros Hc. unfold ClearAll.
  apply (consistent_registry_only
           (foldl (fun acc k => Clear k acc) s (map_to_list (opts s)).*1));
    try done.
  generalize ((map_to_list (opts s)).*1). intros l.
  revert s Hc. induction l as [|k l IH]; intros s Hc; simpl; [done|].
  apply IH. by apply consistent_Clear.
Qed.

Lemma consistent_runOp o s : consistent s → consistent (runOp o s).
Proof.
  intros Hc. destruct o as [k l sh b r u | k |]; simpl.
  - rewrite RegisterOpt_eq.
    destruct (registrationCheck _ s) eqn:E; simpl; [done|].
    by apply consistent_insertOpt.
  - by apply consistent_Clear.
  - by apply consistent_ClearAll.
Qed.

(** C9: after any sequence of registrations, clears of one key and clears
    of all keys, starting from the state of [init], the registry tables
    agree: an option is in the short table, under its non-empty short form,
    exactly when it is in the canonical table; likewise in the long table;
    and the required set holds exactly the keys of the registered options
    marked required. *)
Theorem registry_consistent (ops : list op) :
  consistent (runOps ops init)
  ∧ (∀ o, nonempty (short o) = true →
          shortKeys (runOps ops init) !! short o = Some o
          ↔ opts (runOps ops init) !! key o = Some o)
  ∧ (∀ o, nonempty (long o) = true →
          longKeys (runOps ops init) !! long o = Some o
          ↔ opts (runOps ops init) !! key o = Some o)
  ∧ (∀ k, is_Some (requiredOpts (runOps ops init) !! k)
          ↔ ∃ o, opts (runOps ops init) !! k = Some o ∧ required o = true).
Proof.
  assert (consistent (runOps ops init)) as Hc.
  { unfold runOps. generalize consistent_init. generalize init.
    induction ops as [|o ops IH]; intros s Hs; simpl; [done|].
    apply IH. by apply consistent_runOp. }
  split; [done|]. destruct Hc as [Hk Hs Hl Hr].
  split; [|split; [|exact Hr]].
  - intros o Hn. split.
    + intros H. by apply Hs in H as (_ & _ & H).
    + intros H. by apply Hs.
  - intros o Hn. split.
    + intros H. by apply Hl in H as (_ & _ & H).
    + intros H. by apply Hl.
Qed.

(** * Further properties of the package *)

(** ** What a turn of the loop does to the state *)

Lemma setAllBool_effect ks s s' :
  Forall (boolean (shortKeys s)) ks →
  setAllBool ks s = Some s' →
  ∃ bv, s' = set_boolVals (fun _ => bv) s
        ∧ ∀ k, bv !! k = boolVals s !! k
               ∨ (bv !! k = Some true
                  ∧ ∃ c o, shortKeys s !! c = Some o ∧ isBool o = true
                           ∧ key o = k).
Proof.
  revert s. induction ks as [|c ks IH]; intros s HB; simpl.
  - intros [= <-]. exists (boolVals s). split; [by destruct s | by left].
  - inversion HB as [|? ? (o & Ho & Hb) HB']; subst. rewrite Ho.
    intros H. apply IH in H as (bv & -> & Hbv); [|done].
    exists bv. split; [done|]. intros k.
    destruct (Hbv k) as [Hk | Hk]; [|by right].
    simpl in Hk. destruct (decide (key o = k)) as [<-|Hne].
    + right. rewrite lookup_insert_eq in Hk. split; [done|]. by exists c, o.
    + left. by rewrite lookup_insert_ne in Hk.
Qed.

Lemma firstNonBool_None_boolean sk ks :
  firstNonBool sk ks = Some None → Forall (boolean sk) ks.
Proof.
  induction ks as [|c ks IH]; simpl; [constructor|].
  destruct (sk !! c) as [o|] eqn:Ho; [|done].
  destruct (isBool o) eqn:Hb; simpl; [|done].
  intros H. constructor; [by exists o | by apply IH].
Qed.

Lemma splitEqualsArg_second arg parts :
  splitEqualsArg arg = Some parts → nonempty (nth 1 parts "") = true.
Proof.
  unfold splitEqualsArg.
  destruct (split_equals (stripDashes arg)) as [|p0 [|p1 [|p2 ps]]]; try done.
  destruct (0 <? String.length p1)%nat eqn:E; [|done].
  intros [= <-]. simpl. apply nonempty_length. by apply Nat.ltb_lt.
Qed.

Lemma getValForEqualsSignArg_ok s arg k v :
  getValForEqualsSignArg s arg = Some (k, v, None) →
  ∃ x o, (shortKeys s !! x = Some o ∨ longKeys s !! x = Some o)
         ∧ isBool o = false ∧ nonempty v = true ∧ k = key o.
Proof.
  unfold getValForEqualsSignArg.
  destruct (splitEqualsArg arg) as [parts|] eqn:Hp; [|done].
  apply splitEqualsArg_second in Hp.
  destruct (multiDash arg).
  - destruct (longKeys s !! nth 0 parts "") as [o|] eqn:Ho; [|done].
    destruct (isBool o) eqn:Hb; [done|].
    destruct (_ <? 1)%nat; [done|]. intros [= <- <-].
    exists (nth 0 parts ""), o. auto.
  - destruct (singleDash arg); [|done].
    destruct (shortKeys s !! nth 0 parts "") as [o|] eqn:Ho; [|done].
    destruct (isBool o) eqn:Hb; [done|].
    destruct (_ <? 1)%nat; [done|]. intros [= <- <-].
    exists (nth 0 parts ""), o. auto.
Qed.

Lemma lookaheadBranch_effect args i arg x o foundReqs s i' foundReqs' s' :
  shortKeys s !! x = Some o ∨ longKeys s !! x = Some o →
  isBool o = false →
  lookaheadBranch args i arg o foundReqs s = Continue i' foundReqs' s' →
  effect s arg s'.
Proof.
  intros Hx Hb. unfold lookaheadBranch.
  destruct (nonempty (lookaheadForVal args i)) eqn:Hn; simpl; [|done].
  intros [= <- <- <-]. by eapply effect_string.
Qed.

Lemma step_continue_effect args i arg foundReqs s i' foundReqs' s' :
  step args i arg foundReqs s = Continue i' foundReqs' s' → effect s arg s'.
Proof.
  unfold step.
  destruct (singleDashEquals arg || multiDashEquals arg).
  { destruct (getValForEqualsSignArg s arg) as [[[k v] [err|]]|] eqn:E; try done.
    intros [= <- <- <-].
    apply getValForEqualsSignArg_ok in E as (x & o & Hx & Hb & Hv & ->).
    by eapply effect_string. }
  destruct (multiDash arg).
  { destruct (longKeys s !! stripDashes arg) as [o|] eqn:Ho; [|done].
    destruct (isBool o) eqn:Hb.
    - intros [= <- <- <-]. eapply effect_bool; eauto.
    - eapply lookaheadBranch_effect; eauto. }
  destruct (singleDash arg) eqn:Hs.
  2:{ intros [= <- <- <-]. by apply effect_positional. }
  destruct (String.length (stripDashes arg) =? 1)%nat eqn:Hlen.
  { destruct (shortKeys s !! stripDashes arg) as [o|] eqn:Ho; [|done].
    destruct (isBool o) eqn:Hb.
    - intros [= <- <- <-]. eapply effect_bool; eauto.
    - eapply lookaheadBranch_effect; eauto. }
  destruct (getMultiOptKeys s arg) as [ks|].
  - destruct (firstNonBool (shortKeys s) ks) as [[k|]|] eqn:Hf; try done.
    apply firstNonBool_None_boolean in Hf.
    destruct (setAllBool ks s) as [s1|] eqn:Hset; [|done].
    intros [= <- <- <-].
    apply setAllBool_effect in Hset as (bv & -> & Hbv); [|done].
    by apply effect_bools.
  - destruct (stripDashes arg) as [|c0 rest] eqn:Hstrip; [done|].
    destruct (shortKeys s !! string_of_byte c0) as [o|] eqn:Ho; [|done].
    destruct (isBool o) eqn:Hb; [done|].
    intros [= <- <- <-]. eapply effect_string; eauto.
    by destruct rest.
Qed.

(** ** Properties kept by every call *)

Lemma mainLoop_preserves (P : state → Prop) :
  (∀ s arg s', P s → effect s arg s' → P s') →
  (∀ s e, P s → P (set_parseError e s)) →
  ∀ fuel args i foundReqs s r,
    P s → mainLoop fuel args i foundReqs s = Some r → P (endState r).
Proof.
  intros Heff Herr fuel args.
  induction fuel as [|fuel IH]; intros i f s r HP; simpl.
  - destruct (args !! i); [done|]. by intros [= <-].
  - destruct (args !! i) as [arg|]; [|by intros [= <-]].
    destruct (step args i arg f s) as [s1|i1 f1 s1|] eqn:Hs; [| |done].
    + intros [= <-]. simpl.
      apply step_halt_error in Hs as (e & -> & _). by apply Herr.
    + apply IH. eapply Heff; [done|]. by eapply step_continue_effect.
Qed.

Lemma checkRequired_cases foundReqs s :
  checkRequired foundReqs s = s
  ∨ ∃ e, checkRequired foundReqs s = set_parseError e s.
Proof. unfold checkRequired. destruct (_ <? _)%nat; eauto. Qed.

Lemma Parse_preserves (P : state → Prop) args s s' :
  (∀ s arg s', P s → effect s arg s' → P s') →
  (∀ s e, P s → P (set_parseError e s)) →
  P s → Parse args s = Some s' → P s'.
Proof.
  intros Heff Herr HP. unfold Parse.
  assert (∀ f s1, P s1 → P (checkRequired f s1)) as Hchk.
  { intros f s1 H1. destruct (checkRequired_cases f s1) as [-> | [e ->]]; auto. }
  destruct (length args <? 2)%nat.
  - intros [= <-]. by apply Hchk.
  - destruct (mainLoop _ _ _ _ _) as [r|] eqn:Hr; [|done].
    pose proof (mainLoop_preserves P Heff Herr _ _ _ _ _ _ HP Hr) as H.
    destruct r; intros [= <-]; simpl in H; auto.
Qed.

Lemma effect_sameRegistry s arg s' : effect s arg s' → sameRegistry s s'.
Proof. by destruct 1. Qed.

Lemma indexed_registered f idx canon x o :
  indexed f idx canon → idx !! x = Some o → canon !! key o = Some o.
Proof. intros Hi H. by apply Hi in H as (_ & _ & H). Qed.

Lemma consistent_resolved s x o :
  consistent s →
  shortKeys s !! x = Some o ∨ longKeys s !! x = Some o →
  opts s !! key o = Some o.
Proof.
  intros [_ Hs Hl _] [H|H].
  - by apply (indexed_registered short (shortKeys s) (opts s) x).
  - by apply (indexed_registered long (longKeys s) (opts s) x).
Qed.

Lemma sound_effect s arg s' : sound s → effect s arg s' → sound s'.
Proof.
  intros [Hc Hv [Hb Hstr]] He.
  pose proof (effect_sameRegistry _ _ _ He) as (E1 & E2 & E3 & E4).
  split.
  - by eapply consistent_registry_only.
  - by rewrite E1.
  - destruct He as [x o v Hx Hbo Hne | x o Hx Hbo | bv Hbv | Hd];
      split; simpl; try exact Hb; try exact Hstr.
    + intros k w. destruct (decide (key o = k)) as [<-|Hk].
      * rewrite lookup_insert_eq. intros [= <-]. split; [done|].
        exists o. split; [|done]. by eapply consistent_resolved.
      * rewrite lookup_insert_ne by done. apply Hstr.
    + intros k. destruct (decide (key o = k)) as [<-|Hk].
      * intros _. exists o. split; [|done]. by eapply consistent_resolved.
      * rewrite lookup_insert_ne by done. apply Hb.
    + intros k Hk. destruct (Hbv k) as [E | (_ & c & o & Ho & Hbo & <-)].
      * rewrite E in Hk. by apply Hb.
      * exists o. split; [|done]. eapply consistent_resolved; eauto.
Qed.

Lemma sound_set_parseError s e : sound s → sound (set_parseError e s).
Proof.
  intros [Hc Hv Ht]. split; [|done|done].
  by apply (consistent_registry_only s).
Qed.

Lemma sound_init : sound init.
Proof.
  split.
  - apply consistent_init.
  - intros k o H. simpl in H. by rewrite lookup_empty in H.
  - split; simpl.
    + intros k [? H]. by rewrite lookup_empty in H.
    + intros k v H. by rewrite lookup_empty in H.
Qed.

Lemma registrationCheck_valid o s :
  registrationCheck o s = None → optionValid o.
Proof.
  unfold registrationCheck, optionValid.
  destruct (isBool o && required o) eqn:E1; [done|].
  destruct (negb (nonempty (short o)) && negb (nonempty (long o))) eqn:E2;
    [done|].
  destruct (nonempty (short o) && (1 <? String.length (short o))%nat) eqn:E3;
    [done|].
  destruct (nonempty (long o) && (String.length (long o) <? 2)%nat) eqn:E4;
    [done|].
  intros _. split; [done|]. split.
  { by destruct (nonempty (short o)), (nonempty (long o)). }
  split; intros Hn.
  - rewrite Hn in E3. simpl in E3. apply Nat.ltb_ge in E3.
    apply nonempty_length in Hn. lia.
  - rewrite Hn in E4. simpl in E4. by apply Nat.ltb_ge in E4.
Qed.

Lemma sound_insertOpt o s :
  sound s → registrationCheck o s = None → sound (insertOpt o s).
Proof.
  intros [Hc Hv [Hb Hstr]] Hchk.
  pose proof (registrationCheck_passed _ _ Hchk) as (Hfresh & _ & _).
  split.
  - by apply consistent_insertOpt.
  - simpl. intros k o'. destruct (decide (key o = k)) as [<-|Hk].
    + rewrite lookup_insert_eq. intros [= <-]. by eapply registrationCheck_valid.
    + rewrite lookup_insert_ne by done. apply Hv.
  - split; simpl.
    + intros k Hk. destruct (Hb k Hk) as (o' & Ho' & Hbo).
      exists o'. split; [|done]. rewrite lookup_insert_ne; [done|]. congruence.
    + intros k v Hk. destruct (Hstr k v Hk) as (Hne & o' & Ho' & Hbo).
      split; [done|]. exists o'. split; [|done].
      rewrite lookup_insert_ne; [done|]. congruence.
Qed.

(** The value tables after [Clear] of a registered key. *)
Lemma Clear_values k s o :
  opts s !! k = Some o →
  boolVals (Clear k s)
  = (if isBool o then delete (key o) (boolVals s) else boolVals s)
  ∧ stringVals (Clear k s)
    = (if isBool o then stringVals s else delete (key o) (stringVals s))
  ∧ extraArgs (Clear k s) = extraArgs s
  ∧ parseError (Clear k s) = parseError s.
Proof.
  intros Ho. unfold Clear. rewrite Ho.
  destruct (nonempty (short o)), (nonempty (long o)), (required o), (isBool o);
    simpl;
    repeat match goal with
           | |- context [present ?x] =>
               let E := fresh in destruct x eqn:E; simpl
           end;
    rewrite ?delete_id by done; done.
Qed.

Lemma sound_Clear k s : sound s → sound (Clear k s).
Proof.
  intros Hs. destruct (opts s !! k) as [o|] eqn:Ho.
  2:{ by rewrite Clear_absent. }
  destruct Hs as [Hc Hv [Hb Hstr]].
  destruct (Clear_registered k s o Ho) as (E1 & _).
  destruct (Clear_values k s o Ho) as (V1 & V2 & _).
  assert (key o = k) as Hkey by (by apply (opts_keyed s Hc)).
  split.
  - by apply consistent_Clear.
  - rewrite E1. intros k' o' H. apply lookup_delete_Some in H as [_ H].
    by eapply Hv.
  - split; rewrite ?E1, ?V1, ?V2.
    + intros k' Hk'.
      assert (is_Some (boolVals s !! k')) as Hk.
      { destruct (isBool o); [|done].
        destruct Hk' as [b Hk']. apply lookup_delete_Some in Hk' as [_ Hk']. eauto. }
      destruct (Hb k' Hk) as (o' & Ho' & Hbo).
      exists o'. split; [|done]. rewrite lookup_delete_ne; [done|].
      intros <-. assert (o' = o) as -> by congruence.
      rewrite Hbo, Hkey, lookup_delete_eq in Hk'. by destruct Hk'.
    + intros k' v Hk'.
      assert (stringVals s !! k' = Some v) as Hk.
      { destruct (isBool o); [done|].
        by apply lookup_delete_Some in Hk' as [_ Hk']. }
      destruct (Hstr k' v Hk) as (Hne & o' & Ho' & Hbo).
      split; [done|]. exists o'. split; [|done].
      rewrite lookup_delete_ne; [done|].
      intros <-. assert (o' = o) as -> by congruence.
      rewrite Hbo, Hkey, lookup_delete_eq in Hk'. done.
Qed.

Lemma foldl_Clear_preserves (P : state → Prop) l s :
  (∀ k s, P s → P (Clear k s)) → P s →
  P (foldl (fun acc k => Clear k acc) s l).
Proof.
  intros HP. revert s. induction l as [|k l IH]; intros s Hs; simpl; auto.
Qed.

Lemma sound_ClearAll s : sound s → sound (ClearAll s).
Proof.
  intros Hs. unfold ClearAll.
  pose proof (foldl_Clear_preserves sound (map_to_list (opts s)).*1 s
                sound_Clear Hs) as [Hc Hv Ht].
  split; [|done|done]. eapply consistent_registry_only; [..|exact Hc]; done.
Qed.

Lemma sound_runAction a s : sound s → sound (runAction a s).
Proof.
  intros Hs. destruct a as [k l sh b r u | k | | args]; simpl.
  - rewrite RegisterOpt_eq.
    destruct (registrationCheck _ s) eqn:E; simpl; [done|].
    by apply sound_insertOpt.
  - by apply sound_Clear.
  - by apply sound_ClearAll.
  - destruct (Parse args s) as [s'|] eqn:Hp; [|done].
    eapply (Parse_preserves sound); eauto using sound_effect, sound_set_parseError.
Qed.

Lemma sound_runActions acts s : sound s → sound (runActions acts s).
Proof.
  unfold runActions. revert s.
  induction acts as [|a acts IH]; intros s Hs; simpl; [done|].
  apply IH. by apply sound_runAction.
Qed.

(** ** After any program *)

Lemma state_eq s s' :
  opts s' = opts s → shortKeys s' = shortKeys s → longKeys s' = longKeys s →
  requiredOpts s' = requiredOpts s → boolVals s' = boolVals s →
  stringVals s' = stringVals s → extraArgs s' = extraArgs s →
  parseError s' = parseError s → s' = s.
Proof. destruct s, s'. simpl. by intros -> -> -> -> -> -> -> ->. Qed.

Lemma opts_Clear k s : opts (Clear k s) = delete k (opts s).
Proof.
  destruct (opts s !! k) as [o|] eqn:Ho.
  - by destruct (Clear_registered k s o Ho) as (-> & _).
  - by rewrite Clear_absent, delete_id.
Qed.

Lemma opts_foldl_Clear l s k :
  opts (foldl (fun acc k => Clear k acc) s l) !! k
  = if decide (k ∈ l) then None else opts s !! k.
Proof.
  revert s. induction l as [|x l IH]; intros s; simpl.
  - destruct (decide (k ∈ [])) as [H|H]; [by apply elem_of_nil in H | done].
  - rewrite IH, opts_Clear.
    destruct (decide (k ∈ l)) as [Hin|Hnin];
      destruct (decide (k ∈ x :: l)) as [Hin'|Hnin']; try done.
    + exfalso. apply Hnin'. by right.
    + apply elem_of_cons in Hin' as [->|?]; [|done].
      by rewrite lookup_delete_eq.
    + rewrite lookup_delete_ne; [done|]. intros ->. apply Hnin'. by left.
Qed.

Lemma opts_ClearAll s : opts (ClearAll s) = ∅.
Proof.
  apply map_empty. intros k. unfold ClearAll. simpl.
  rewrite opts_foldl_Clear. case_decide as Hin; [done|].
  destruct (opts s !! k) as [o|] eqn:Ho; [|done].
  exfalso. apply Hin. apply list_elem_of_fmap. exists (k, o).
  split; [done|]. by apply elem_of_map_to_list.
Qed.

(** A sound state without options is the state of [init], up to the
    positional arguments and the error. *)
Lemma sound_empty s :
  sound s → opts s = ∅ →
  shortKeys s = ∅ ∧ longKeys s = ∅ ∧ requiredOpts s = ∅
  ∧ boolVals s = ∅ ∧ stringVals s = ∅.
Proof.
  intros [[Hk Hs Hl Hr] _ [Hb Hstr]] He.
  repeat split; apply map_empty; intros k.
  - destruct (shortKeys s !! k) as [o|] eqn:E; [|done].
    apply Hs in E as (_ & _ & E). by rewrite He, lookup_empty in E.
  - destruct (longKeys s !! k) as [o|] eqn:E; [|done].
    apply Hl in E as (_ & _ & E). by rewrite He, lookup_empty in E.
  - destruct (requiredOpts s !! k) as [b|] eqn:E; [|done].
    destruct (proj1 (Hr k)) as (o & Ho & _); [by rewrite E|].
    by rewrite He, lookup_empty in Ho.
  - destruct (boolVals s !! k) as [b|] eqn:E; [|done].
    destruct (Hb k) as (o & Ho & _); [by rewrite E|].
    by rewrite He, lookup_empty in Ho.
  - destruct (stringVals s !! k) as [v|] eqn:E; [|done].
    destruct (Hstr k v E) as (_ & o & Ho & _).
    by rewrite He, lookup_empty in Ho.
Qed.

Lemma sound_ClearAll_init s : sound s → ClearAll s = init.
Proof.
  intros Hs.
  destruct (sound_empty (ClearAll s) (sound_ClearAll s Hs) (opts_ClearAll s))
    as (E2 & E3 & E4 & E5 & E6).
  apply state_eq; simpl; try done. apply opts_ClearAll.
Qed.

(** X1: whatever registrations, clears and scans came before, [ClearAll]
    brings the package back to the state of [init]: no option, no bound
    value, no positional argument, no error. *)
Theorem ClearAll_resets (acts : list action) :
  ClearAll (runActions acts init) = init.
Proof. apply sound_ClearAll_init, sound_runActions, sound_init. Qed.

(** X2: every option in the canonical table, after any program, sits under
    its own key and has the shape that registration demands: not both
    boolean and required, a short or a long form, a short form of exactly
    one byte if any, a long form of at least two if any. *)
Theorem registered_options_valid (acts : list action) (k : string) (o : opt) :
  opts (runActions acts init) !! k = Some o →
  key o = k ∧ optionValid o.
Proof.
  intros Ho.
  destruct (sound_runActions acts init sound_init) as [Hc Hv _].
  split; [by apply (opts_keyed _ Hc) | by eapply Hv].
Qed.

Lemma registered_options_valid_witness :
  key (mkOpt "opt" "test" "t" false true "") = "opt"
  ∧ optionValid (mkOpt "opt" "test" "t" false true "").
Proof.
  apply (registered_options_valid
           [ActRegister "opt" "--test" "-t" false true "";
            ActParse ["prog"; "-t"; "v"];
            ActRegister "bad" "x" "" false false ""]
           "opt" (mkOpt "opt" "test" "t" false true "")).
  vm_compute. reflexivity.
Defined.

(** X3: after any program, a boolean value is bound only under the key of
    a registered boolean option and a string value only under the key of a
    registered non-boolean option; no bound string is empty, so [GetString]
    gives the empty string exactly when nothing is bound. *)
Theorem bound_values_typed (acts : list action) (k : string) :
  (GetBool k (runActions acts init) = true →
     ∃ o, opts (runActions acts init) !! k = Some o ∧ isBool o = true)
  ∧ (nonempty (GetString k (runActions acts init)) = true →
     ∃ o, opts (runActions acts init) !! k = Some o ∧ isBool o = false)
  ∧ (GetString k (runActions acts init) = ""
     ↔ stringVals (runActions acts init) !! k = None).
Proof.
  destruct (sound_runActions acts init sound_init) as [_ _ [Hb Hs]].
  unfold GetBool, GetString. repeat split.
  - intros H. apply Hb. by apply present_true.
  - destruct (stringVals _ !! k) as [v|] eqn:E; [|done].
    intros _. by destruct (Hs k v E) as [_ ?].
  - destruct (stringVals _ !! k) as [v|] eqn:E; [|done].
    intros ->. by destruct (Hs k "" E) as [? _].
  - by intros ->.
Qed.

(** X4: after any program, [Clear k] leaves no option under [k] and no
    value bound to [k], and touches no other key: the options and the
    values of the other keys are as before, and so are the positional
    arguments and the error. *)
Theorem Clear_removes_key (acts : list action) (k : string) :
  opts (Clear k (runActions acts init)) !! k = None
  ∧ GetBool k (Clear k (runActions acts init)) = false
  ∧ GetString k (Clear k (runActions acts init)) = ""
  ∧ (∀ k', k' ≠ k →
       opts (Clear k (runActions acts init)) !! k'
       = opts (runActions acts init) !! k'
       ∧ boolVals (Clear k (runActions acts init)) !! k'
         = boolVals (runActions acts init) !! k'
       ∧ stringVals (Clear k (runActions acts init)) !! k'
         = stringVals (runActions acts init) !! k')
  ∧ extraArgs (Clear k (runActions acts init))
    = extraArgs (runActions acts init)
  ∧ parseError (Clear k (runActions acts init))
    = parseError (runActions acts init).
Proof.
  pose proof (sound_runActions acts init sound_init) as Hs.
  set (s := runActions acts init) in *.
  destruct (sound_Clear k s Hs) as [_ _ [Hb' Hstr']].
  assert (opts (Clear k s) !! k = None) as Hgone
    by (by rewrite opts_Clear, lookup_delete_eq).
  split; [done|]. split; [|split].
  - unfold GetBool. apply present_false.
    destruct (boolVals (Clear k s) !! k) as [b|] eqn:E; [|done].
    destruct (Hb' k) as (o & Ho & _); [by rewrite E | congruence].
  - unfold GetString.
    destruct (stringVals (Clear k s) !! k) as [v|] eqn:E; [|done].
    destruct (Hstr' k v E) as (_ & o & Ho & _). congruence.
  - destruct (opts s !! k) as [o|] eqn:Ho.
    2:{ by rewrite Clear_absent. }
    destruct (Clear_values k s o Ho) as (V1 & V2 & V3 & V4).
    assert (key o = k) as Hkey
      by (by apply (opts_keyed _ (sound_consistent _ Hs))).
    split; [|done]. intros k' Hne.
    rewrite opts_Clear, V1, V2, Hkey, lookup_delete_ne by done.
    destruct (isBool o); by rewrite ?lookup_delete_ne.
Qed.

(** X5: after any program, a registration that succeeds is undone by
    [Clear] of its key: the whole state is again the one before the
    registration. *)
Theorem register_then_Clear (acts : list action) (key0 long0 short0 : string)
    (b r : bool) (u : string) (s1 : state) :
  RegisterOpt key0 long0 short0 b r u (runActions acts init) = (None, s1) →
  Clear key0 s1 = runActions acts init.
Proof.
  pose proof (sound_runActions acts init sound_init) as Hs.
  set (s := runActions acts init) in *.
  rewrite RegisterOpt_eq.
  set (o := mkOpt key0 (stripDashes long0) (stripDashes short0) b r u).
  destruct (registrationCheck o s) eqn:Hchk; [done|]. intros [= <-].
  destruct (registrationCheck_passed _ _ Hchk) as (Hfresh & Hsh & Hlg).
  destruct Hs as [[Hk Hsi Hli Hr] _ [Hb Hstr]].
  assert (opts (insertOpt o s) !! key0 = Some o) as Ho
    by (simpl; by rewrite lookup_insert_eq).
  destruct (Clear_registered key0 _ o Ho) as (E1 & E2 & E3 & E4).
  destruct (Clear_values key0 _ o Ho) as (V1 & V2 & V3 & V4).
  apply state_eq; rewrite ?E1, ?E2, ?E3, ?E4, ?V1, ?V2, ?V3, ?V4; simpl;
    try done.
  - by apply delete_insert_id.
  - destruct (nonempty (stripDashes short0)) eqn:Hn; [|done].
    apply delete_insert_id. by apply Hsh.
  - destruct (nonempty (stripDashes long0)) eqn:Hn; [|done].
    apply delete_insert_id. by apply Hlg.
  - destruct r; [|done]. apply delete_insert_id.
    destruct (requiredOpts s !! key0) as [x|] eqn:E; [|done].
    destruct (proj1 (Hr key0)) as (o' & Ho' & _); [by rewrite E|].
    simpl in Hfresh. congruence.
  - destruct b; [|done]. apply delete_id.
    destruct (boolVals s !! key0) as [x|] eqn:E; [|done].
    destruct (Hb key0) as (o' & Ho' & _); [by rewrite E|].
    simpl in Hfresh. congruence.
  - destruct b; [done|]. apply delete_id.
    destruct (stringVals s !! key0) as [x|] eqn:E; [|done].
    destruct (Hstr key0 x E) as (_ & o' & Ho' & _).
    simpl in Hfresh. congruence.
Qed.

Lemma register_then_Clear_witness :
  Clear "opt" (registerOne "opt" false true "")
  = runActions [ActParse ["prog"; "x"]; ActClearAll] init.
Proof.
  apply (register_then_Clear [ActParse ["prog"; "x"]; ActClearAll]
           "opt" "test" "t" false true "").
  vm_compute. reflexivity.
Defined.

(** ** Registration: what is stored and what is refused *)

Lemma optionValid_shape o s :
  optionValid o →
  registrationCheck o s
  = if present (opts s !! key o)
    then Some (ERR_OPT_KEY_ALREADY_EXISTS +:+ key o)
    else if nonempty (short o) && present (shortKeys s !! short o)
    then Some (ERR_SHORT_ALREADY_EXISTS +:+ short o)
    else if nonempty (long o) && present (longKeys s !! long o)
    then Some (ERR_LONG_ALREADY_EXISTS +:+ long o)
    else None.
Proof.
  intros (H1 & H2 & H3 & H4). unfold registrationCheck. rewrite H1.
  assert (negb (nonempty (short o)) && negb (nonempty (long o)) = false) as ->.
  { by destruct (nonempty (short o)), (nonempty (long o)). }
  assert (nonempty (short o) && (1 <? String.length (short o))%nat = false)
    as ->.
  { destruct (nonempty (short o)); [|done]. simpl. by rewrite H3. }
  assert (nonempty (long o) && (String.length (long o) <? 2)%nat = false)
    as ->; [|done].
  destruct (nonempty (long o)); [|done]. simpl.
  apply Nat.ltb_ge. by apply H4.
Qed.

(** X6: a registration that succeeds stores the option, with its forms
    stripped of dashes, under its key, under its short form and under its
    long form when these are not empty, and in the required set when it is
    required; the entries of the other keys are untouched. *)
Theorem registered_option_stored (key0 long0 short0 : string) (b r : bool)
    (u : string) (s s1 : state) :
  RegisterOpt key0 long0 short0 b r u s = (None, s1) →
  let o := mkOpt key0 (stripDashes long0) (stripDashes short0) b r u in
  optionValid o
  ∧ opts s1 !! key0 = Some o
  ∧ (nonempty (short o) = true → shortKeys s1 !! short o = Some o)
  ∧ (nonempty (long o) = true → longKeys s1 !! long o = Some o)
  ∧ (r = true → requiredOpts s1 !! key0 = Some true)
  ∧ (∀ k, k ≠ key0 → opts s1 !! k = opts s !! k)
  ∧ boolVals s1 = boolVals s ∧ stringVals s1 = stringVals s
  ∧ extraArgs s1 = extraArgs s ∧ parseError s1 = parseError s.
Proof.
  rewrite RegisterOpt_eq. intros H o. fold o in H.
  destruct (registrationCheck o s) eqn:Hchk; [done|]. injection H as <-.
  split; [by eapply registrationCheck_valid|]. simpl.
  split; [by rewrite lookup_insert_eq|].
  split; [intros ->; by rewrite lookup_insert_eq|].
  split; [intros ->; by rewrite lookup_insert_eq|].
  split; [intros ->; by rewrite lookup_insert_eq|].
  split; [|done]. intros k Hk. by rewrite lookup_insert_ne.
Qed.

Lemma registered_option_stored_witness :
  let o := mkOpt "opt" (stripDashes "--test") (stripDashes "-t") false true "" in
  optionValid o
  ∧ opts (registerOne "opt" false true "") !! "opt" = Some o
  ∧ (nonempty (short o) = true →
     shortKeys (registerOne "opt" false true "") !! short o = Some o)
  ∧ (nonempty (long o) = true →
     longKeys (registerOne "opt" false true "") !! long o = Some o)
  ∧ (true = true →
     requiredOpts (registerOne "opt" false true "") !! "opt" = Some true)
  ∧ (∀ k, k ≠ "opt" →
          opts (registerOne "opt" false true "") !! k = opts init !! k)
  ∧ boolVals (registerOne "opt" false true "") = boolVals init
  ∧ stringVals (registerOne "opt" false true "") = stringVals init
  ∧ extraArgs (registerOne "opt" false true "") = extraArgs init
  ∧ parseError (registerOne "opt" false true "") = parseError init.
Proof.
  apply (registered_option_stored "opt" "--test" "-t" false true "" init
           (registerOne "opt" false true "")).
  vm_compute. reflexivity.
Defined.

(** X7: once an option is registered, a further registration of a
    well-shaped option is refused, and the state left as it is, with the
    key error when it has the same key, with the short-form error when its
    key is new and it has the same short form, and with the long-form error
    when its key and its short form are new and it has the same long
    form. *)
Theorem duplicate_registration_refused (key0 long0 short0 : string)
    (b r : bool) (u : string) (s s1 : state)
    (key1 long1 short1 : string) (b1 r1 : bool) (u1 : string) :
  RegisterOpt key0 long0 short0 b r u s = (None, s1) →
  optionValid (mkOpt key1 (stripDashes long1) (stripDashes short1) b1 r1 u1) →
  (key1 = key0 →
     RegisterOpt key1 long1 short1 b1 r1 u1 s1
     = (Some (ERR_OPT_KEY_ALREADY_EXISTS +:+ key0), s1))
  ∧ (opts s1 !! key1 = None →
     nonempty (stripDashes short0) = true →
     stripDashes short1 = stripDashes short0 →
     RegisterOpt key1 long1 short1 b1 r1 u1 s1
     = (Some (ERR_SHORT_ALREADY_EXISTS +:+ stripDashes short0), s1))
  ∧ (opts s1 !! key1 = None →
     shortKeys s1 !! stripDashes short1 = None →
     nonempty (stripDashes long0) = true →
     stripDashes long1 = stripDashes long0 →
     RegisterOpt key1 long1 short1 b1 r1 u1 s1
     = (Some (ERR_LONG_ALREADY_EXISTS +:+ stripDashes long0), s1)).
Proof.
  rewrite RegisterOpt_eq.
  set (o := mkOpt key0 (stripDashes long0) (stripDashes short0) b r u).
  destruct (registrationCheck o s) eqn:Hchk; [done|]. intros [= <-] Hv.
  rewrite RegisterOpt_eq, (optionValid_shape _ _ Hv). simpl.
  repeat split.
  - intros ->. by rewrite lookup_insert_eq.
  - intros Hk Hn Hs. rewrite Hk, Hs, Hn. simpl.
    by rewrite lookup_insert_eq.
  - intros Hk Hs Hn Hl. rewrite Hk. simpl.
    simpl in Hs. rewrite Hs, andb_false_r, Hl, Hn. simpl.
    by rewrite lookup_insert_eq.
Qed.

Lemma duplicate_registration_refused_witness :
  RegisterOpt "newsovalid" "soval" "x" true false "test usage"
    (registerMany [mkOpt "sovalid" "soval" "s" true false "test usage"] init)
  = (Some (ERR_LONG_ALREADY_EXISTS +:+ stripDashes "soval"),
     registerMany [mkOpt "sovalid" "soval" "s" true false "test usage"] init).
Proof.
  assert (optionValid (mkOpt "newsovalid" (stripDashes "soval")
                         (stripDashes "x") true false "test usage")) as Hv.
  { repeat split; vm_compute; intros; (reflexivity || lia). }
  apply (proj2 (proj2 (duplicate_registration_refused
                         "sovalid" "soval" "s" true false "test usage" init
                         (registerMany
                            [mkOpt "sovalid" "soval" "s" true false "test usage"]
                            init)
                         "newsovalid" "soval" "x" true false "test usage"
                         eq_refl Hv))); reflexivity.
Defined.

(** ** What a scan changes and what it leaves *)

Lemma sameRegistry_refl s : sameRegistry s s.
Proof. by repeat split. Qed.

Lemma sameRegistry_trans s1 s2 s3 :
  sameRegistry s1 s2 → sameRegistry s2 s3 → sameRegistry s1 s3.
Proof.
  intros (A1 & A2 & A3 & A4) (B1 & B2 & B3 & B4).
  repeat split; congruence.
Qed.

(** X8: [Parse] returns on every argument list and every state (none of
    its nil dereferences or index expressions is reached with a nil pointer
    or out of range), and it registers and removes nothing: the canonical,
    short and long tables and the required set are the same afterwards. *)
Theorem Parse_keeps_registry (args : list string) (s : state) :
  ∃ s', Parse args s = Some s' ∧ sameRegistry s s'.
Proof.
  destruct (Parse_total args s) as [s' Hp]. exists s'. split; [done|].
  apply (Parse_preserves (sameRegistry s) args s s'); try done.
  intros s1 arg s2 H1 He. eapply sameRegistry_trans; [exact H1|].
  by eapply effect_sameRegistry.
Qed.

Lemma effect_extraArgs s arg s' :
  effect s arg s' →
  parseError s' = parseError s
  ∧ (extraArgs s' = extraArgs s
     ∨ (singleDash arg = false ∧ extraArgs s' = (extraArgs s ++ [arg])%list)).
Proof. destruct 1; simpl; auto. Qed.

Lemma sublist_drop_le {A} (l : list A) i j :
  (i ≤ j)%nat → drop j l `sublist_of` drop i l.
Proof.
  intros Hle. replace j with (i + (j - i))%nat by lia.
  rewrite <- drop_drop. apply sublist_drop.
Qed.

Lemma mainLoop_extraArgs fuel (args : list string) i foundReqs s r :
  mainLoop fuel args i foundReqs s = Some r →
  ∃ l, extraArgs (endState r) = (extraArgs s ++ l)%list
       ∧ l `sublist_of` drop i args
       ∧ Forall (fun a => singleDash a = false) l.
Proof.
  revert i foundReqs s.
  induction fuel as [|fuel IH]; intros i f s; simpl.
  - destruct (args !! i); [done|]. intros [= <-]. exists [].
    simpl. rewrite app_nil_r. split; [done|]. split; [apply sublist_nil_l|done].
  - destruct (args !! i) as [arg|] eqn:Ha.
    2:{ intros [= <-]. exists []. simpl. rewrite app_nil_r.
        split; [done|]. split; [apply sublist_nil_l|done]. }
    destruct (step args i arg f s) as [s1|i1 f1 s1|] eqn:Hs; [| |done].
    + intros [= <-]. simpl. apply step_halt_error in Hs as (e & -> & _).
      exists []. simpl. rewrite app_nil_r.
      split; [done|]. split; [apply sublist_nil_l|done].
    + intros Hr. apply IH in Hr as (l & El & Hsub & Hnd).
      pose proof (step_continue_index _ _ _ _ _ _ _ _ Hs) as Hi1.
      apply step_continue_effect, effect_extraArgs in Hs as [_ [E | [Hd E]]].
      * exists l. rewrite El, E. split; [done|]. split; [|done].
        etrans; [exact Hsub|]. apply sublist_drop_le. lia.
      * exists (arg :: l). rewrite El, E, <- app_assoc. split; [done|].
        split; [|by constructor].
        rewrite (drop_S _ _ _ Ha). apply sublist_skip.
        etrans; [exact Hsub|]. apply sublist_drop_le. lia.
Qed.

(** X9: [Parse] only adds to the positional arguments, at the end: what it
    adds is a selection of the arguments after the program name, in their
    order, none of which is a dash form; what was there before stays in
    front. *)
Theorem positional_arguments_in_order (args : list string) (s : state) :
  ∃ s' l, Parse args s = Some s'
          ∧ GetArgs s' = (GetArgs s ++ l)%list
          ∧ l `sublist_of` drop 1 args
          ∧ Forall (fun a => singleDash a = false) l.
Proof.
  unfold Parse, GetArgs.
  destruct (length args <? 2)%nat.
  - exists (checkRequired ∅ s), []. split; [done|].
    destruct (checkRequired_values ∅ s) as (_ & _ & ->).
    rewrite app_nil_r. split; [done|]. split; [apply sublist_nil_l|done].
  - destruct (mainLoop_total (length args) args 1 ∅ s) as [r Hr]; [lia|].
    rewrite Hr. apply mainLoop_extraArgs in Hr as (l & El & Hsub & Hnd).
    destruct r as [i s1|f1 s1]; simpl in El.
    + by exists s1, l.
    + exists (checkRequired f1 s1), l. split; [done|].
      by destruct (checkRequired_values f1 s1) as (_ & _ & ->).
Qed.

Lemma mainLoop_completed_parseError fuel args i foundReqs s foundReqs' s' :
  mainLoop fuel args i foundReqs s = Some (Completed foundReqs' s') →
  parseError s' = parseError s.
Proof.
  revert i foundReqs s. induction fuel as [|fuel IH]; intros i f s; simpl.
  - destruct (args !! i); [done|]. by intros [= <- <-].
  - destruct (args !! i) as [arg|]; [|by intros [= <- <-]].
    destruct (step args i arg f s) as [s1|i1 f1 s1|] eqn:Hs; try done.
    intros H. apply IH in H. rewrite H.
    by apply step_continue_effect, effect_extraArgs in Hs as [-> _].
Qed.

(** X10: when no option is required, a scan that goes through every token
    without error does not touch the recorded error: an error left by an
    earlier scan is still there afterwards. *)
Theorem stale_error_kept (args : list string) (s s1 : state)
    (foundReqs : gmap string bool) :
  requiredOpts s = ∅ →
  scanCompletes args s foundReqs s1 →
  Parse args s = Some s1 ∧ GetError s1 = GetError s.
Proof.
  intros Hreq Hscan. unfold Parse, GetError, HasError.
  assert (∀ f s2, requiredOpts s2 = ∅ → checkRequired f s2 = s2) as Hchk.
  { intros f s2 H. unfold checkRequired. by rewrite H, map_size_empty. }
  destruct Hscan as [(Hlen & -> & ->) | (Hlen & Hloop)].
  - assert ((length args <? 2)%nat = true) as -> by (by apply Nat.ltb_lt).
    by rewrite Hchk.
  - assert ((length args <? 2)%nat = false) as -> by (apply Nat.ltb_ge; lia).
    rewrite Hloop.
    pose proof (mainLoop_completed_registry _ _ _ _ _ _ _ Hloop) as [_ Hr].
    rewrite Hchk by congruence.
    by rewrite (mainLoop_completed_parseError _ _ _ _ _ _ _ Hloop).
Qed.

Lemma stale_error_kept_witness :
  Parse ["prog"; "x"] (set_parseError "No such option: --old" exampleRegistry)
  = Some (set_extraArgs (fun extra => app extra ["x"])
            (set_parseError "No such option: --old" exampleRegistry))
  ∧ GetError (set_extraArgs (fun extra => app extra ["x"])
                (set_parseError "No such option: --old" exampleRegistry))
    = GetError (set_parseError "No such option: --old" exampleRegistry).
Proof.
  apply (stale_error_kept ["prog"; "x"]
           (set_parseError "No such option: --old" exampleRegistry)
           (set_extraArgs (fun extra => app extra ["x"])
              (set_parseError "No such option: --old" exampleRegistry)) ∅).
  - reflexivity.
  - right. split; [simpl; lia|]. reflexivity.
Defined.

(** ** The helper functions on their own *)

(** X11: [stripDashes] removes one dash or two in front of text that
    starts with neither a dash nor a line end, and leaves such text alone;
    of three dashes or more it removes two only. *)
Theorem stripDashes_inverse (c : ascii) (r : string) :
  is_dash c = false → is_newline c = false →
  stripDashes (String c r) = String c r
  ∧ stripDashes (String dash (String c r)) = String c r
  ∧ stripDashes (String dash (String dash (String c r))) = String c r
  ∧ stripDashes (String dash (String dash (String dash (String c r))))
    = String dash (String c r).
Proof.
  intros Hd Hn.
  assert (is_dash dash = true) as Hdd by done.
  assert (is_newline dash = false) as Hdn by done.
  unfold stripDashes, multiDash, singleDash.
  rewrite ?Hdd, ?Hdn, ?Hd, ?Hn. cbn [andb negb string_drop].
  repeat split.
  - destruct r as [|d2 [|c3 r]]; done.
  - destruct r as [|d2 r]; done.
Qed.

Lemma stripDashes_inverse_witness :
  stripDashes "foo" = "foo"
  ∧ stripDashes "-foo" = "foo"
  ∧ stripDashes "--foo" = "foo"
  ∧ stripDashes "---foo" = "-foo".
Proof.
  apply (stripDashes_inverse "f" "oo"); reflexivity.
Defined.

Lemma split_equals_one s r :
  split_equals s = [r] → s = r ∧ noEquals r = true.
Proof.
  revert r. induction s as [|c s IH]; intros r; simpl.
  - by intros [= <-].
  - destruct (is_equals c) eqn:Hc.
    + pose proof (split_equals_nonempty s) as Hne. intros [= _ Hs]. by apply Hne in Hs.
    + pose proof (split_equals_nonempty s) as Hne.
      destruct (split_equals s) as [|h t] eqn:E; [done|].
      intros [= <- ->]. destruct (IH h eq_refl) as [-> Hh].
      simpl. by rewrite Hc.
Qed.

Lemma split_equals_two s l r :
  split_equals s = [l; r] →
  s = l +:+ String equals r ∧ noEquals l = true ∧ noEquals r = true.
Proof.
  revert l. induction s as [|c s IH]; intros l; simpl; [done|].
  destruct (is_equals c) eqn:Hc.
  - intros [= <- Hs]. apply split_equals_one in Hs as [-> Hr].
    apply bool_decide_eq_true in Hc as ->. done.
  - pose proof (split_equals_nonempty s) as Hne.
    destruct (split_equals s) as [|h t] eqn:E; [done|].
    intros [= <- ->]. destruct (IH h eq_refl) as (-> & Hh & Hr).
    simpl. by rewrite Hc.
Qed.

Lemma splitEqualsArg_single arg l r :
  stripDashes arg = l +:+ String equals r →
  noEquals l = true → noEquals r = true → nonempty r = true →
  splitEqualsArg arg = Some [l; r].
Proof.
  intros E Hl Hr Hne. unfold splitEqualsArg.
  rewrite E, split_equals_app, split_equals_noEquals by done.
  apply nonempty_length in Hne.
  by assert ((0 <? String.length r)%nat = true) as ->
    by (by apply Nat.ltb_lt).
Qed.

(** X12: [splitEqualsArg] gives a result exactly when the argument,
    stripped of its dashes, has a single ['='] with something after it; the
    result is then the text before the ['='] and the text after it, in
    which there is no other ['='], and putting them together around an
    ['='] gives the stripped argument back. *)
Theorem splitEqualsArg_spec (arg : string) (parts : list string) :
  splitEqualsArg arg = Some parts
  ↔ ∃ l r, parts = [l; r]
           ∧ stripDashes arg = l +:+ String equals r
           ∧ noEquals l = true ∧ noEquals r = true ∧ nonempty r = true.
Proof.
  unfold splitEqualsArg. split.
  - destruct (split_equals (stripDashes arg)) as [|p0 [|p1 [|p2 ps]]] eqn:E;
      try done.
    destruct (0 <? String.length p1)%nat eqn:Hlen; [|done].
    intros [= <-]. apply split_equals_two in E as (E & Hl & Hr).
    exists p0, p1. repeat split; try done.
    apply nonempty_length. by apply Nat.ltb_lt.
  - intros (l & r & -> & E & Hl & Hr & Hne). by apply splitEqualsArg_single.
Qed.

(** X13: [lookaheadForVal] gives either the empty string or the argument
    that follows, and never a dash form; when no argument follows, or the
    one that follows is a dash form, it gives the empty string. *)
Theorem lookaheadForVal_result (args : list string) (i : nat) :
  (lookaheadForVal args i = ""
   ∨ (args !! (i + 1)%nat = Some (lookaheadForVal args i)
      ∧ singleDash (lookaheadForVal args i) = false))
  ∧ ((length args ≤ i + 1)%nat → lookaheadForVal args i = "")
  ∧ (∀ w, args !! (i + 1)%nat = Some w → singleDash w = true →
          lookaheadForVal args i = "").
Proof.
  rewrite lookaheadForVal_lookup. repeat split.
  - destruct (args !! (i + 1)%nat) as [v|] eqn:E; [|by left].
    destruct (dashForm v) eqn:Hd; [by left|]. right.
    by rewrite dashForm_singleDash in Hd.
  - intros Hlen. by rewrite lookup_ge_None_2.
  - intros w -> Hw. by rewrite dashForm_singleDash, Hw.
Qed.

(** X14: [getValForEqualsSignArg] dereferences a nil option, and panics,
    exactly on an argument that is no dash form and yet splits in two
    around an ['=']; the main loop calls it on dash forms only. *)
Theorem getValForEqualsSignArg_panics (s : state) (arg : string) :
  (getValForEqualsSignArg s arg = None
   ↔ singleDash arg = false ∧ is_Some (splitEqualsArg arg))
  ∧ (equalsForm arg = true → is_Some (getValForEqualsSignArg s arg)).
Proof.
  assert (getValForEqualsSignArg s arg = None
          ↔ singleDash arg = false ∧ is_Some (splitEqualsArg arg)) as Hiff.
  { unfold getValForEqualsSignArg.
    destruct (splitEqualsArg arg) as [parts|].
    2:{ split; [done|]. by intros [_ [? ?]]. }
    destruct (multiDash arg) eqn:Hm.
    - rewrite (multiDash_singleDash _ Hm).
      destruct (longKeys s !! _) as [o|]; [|split; [done|by intros [? _]]].
      destruct (isBool o); [split; [done|by intros [? _]]|].
      destruct (_ <? 1)%nat; split; try done; by intros [? _].
    - destruct (singleDash arg).
      + destruct (shortKeys s !! _) as [o|]; [|split; [done|by intros [? _]]].
        destruct (isBool o); [split; [done|by intros [? _]]|].
        destruct (_ <? 1)%nat; split; try done; by intros [? _].
      + split; [|done]. intros _. split; [done|eauto]. }
  split; [done|]. intros He.
  destruct (getValForEqualsSignArg s arg) eqn:E; [eauto|].
  destruct (proj1 Hiff eq_refl) as [Hs _]. unfold equalsForm in He.
  apply orb_true_iff in He as [H|H].
  - apply singleDashEquals_singleDash in H. congruence.
  - apply multiDashEquals_multiDash, multiDash_singleDash in H. congruence.
Qed.

Lemma split_equals_trailing l :
  split_equals (l +:+ String equals EmptyString)
  = (split_equals l ++ [EmptyString])%list.
Proof.
  induction l as [|c l IH]; simpl.
  - reflexivity.
  - destruct (is_equals c); simpl; [by rewrite IH|].
    rewrite IH. pose proof (split_equals_nonempty l).
    by destruct (split_equals l).
Qed.

Lemma splitEqualsArg_trailing arg l :
  stripDashes arg = l +:+ String equals EmptyString →
  splitEqualsArg arg = None.
Proof.
  intros E. unfold splitEqualsArg. rewrite E, split_equals_trailing.
  pose proof (split_equals_nonempty l).
  destruct (split_equals l) as [|p0 [|p1 [|p2 ps]]]; done.
Qed.

(** X15: the errors of the equals form.  An argument that ends in ['=']
    gives the missing-value error whatever the registry holds, an unknown
    or a boolean option included.  With a single ['='] and a value after
    it, a left part that is not in the index gives the no-such-option error
    naming the left part, and a boolean option the boolean-with-value
    error naming the whole argument.  The state is otherwise left as it
    was. *)
Theorem equals_form_errors (args : list string) (i : nat) (arg : string)
    (foundReqs : gmap string bool) (s : state) :
  equalsForm arg = true →
  (∀ l, stripDashes arg = l +:+ String equals EmptyString →
        step args i arg foundReqs s
        = Halt (set_parseError (ERR_MISSING_VAL +:+ arg) s))
  ∧ (∀ l r, stripDashes arg = l +:+ String equals r →
            noEquals l = true → noEquals r = true → nonempty r = true →
            (indexFor s arg !! l = None →
             step args i arg foundReqs s
             = Halt (set_parseError (ERR_NO_OPT +:+ l) s))
            ∧ (∀ o, indexFor s arg !! l = Some o → isBool o = true →
                    step args i arg foundReqs s
                    = Halt (set_parseError (ERR_BOOL_WITH_VAL +:+ arg) s))).
Proof.
  intros He.
  assert (singleDash arg = true) as Hs.
  { unfold equalsForm in He. apply orb_true_iff in He as [H|H].
    - by apply singleDashEquals_singleDash.
    - by apply multiDash_singleDash, multiDashEquals_multiDash. }
  unfold equalsForm in He. unfold step. rewrite He.
  unfold getValForEqualsSignArg. split.
  - intros l E. by rewrite (splitEqualsArg_trailing arg l E).
  - intros l r E Hl Hr Hne.
    rewrite (splitEqualsArg_single arg l r) by done.
    simpl nth. unfold indexFor. rewrite Hs.
    destruct (multiDash arg); split.
    + by intros ->.
    + by intros o -> ->.
    + by intros ->.
    + by intros o -> ->.
Qed.

Lemma equals_form_errors_witness :
  step ["prog"; "--bogus="] 1 "--bogus=" ∅ exampleRegistry
  = Halt (set_parseError (ERR_MISSING_VAL +:+ "--bogus=") exampleRegistry).
Proof.
  apply (proj1 (equals_form_errors ["prog"; "--bogus="] 1 "--bogus=" ∅
                  exampleRegistry eq_refl) "bogus").
  reflexivity.
Defined.

(** X16: a bare long token, or a bare short token of one character, that
    is not in its index gives the no-such-option error naming the token as
    written; one that is a boolean option sets that option's key to true,
    takes no value and leaves the following token for the next turn. *)
Theorem bare_flag_token (args : list string) (i : nat) (arg : string)
    (foundReqs : gmap string bool) (s : state) :
  longForm arg = true
  ∨ (shortForm arg = true ∧ String.length (stripDashes arg) = 1%nat) →
  (indexFor s arg !! stripDashes arg = None →
   step args i arg foundReqs s
   = Halt (set_parseError (ERR_NO_OPT +:+ arg) s))
  ∧ (∀ o, indexFor s arg !! stripDashes arg = Some o → isBool o = true →
          step args i arg foundReqs s
          = Continue i foundReqs (set_boolVals <[key o := true]> s)
          ∧ GetBool (key o) (set_boolVals <[key o := true]> s) = true).
Proof.
  unfold indexFor, step. intros [Hf | [Hf Hlen]].
  - apply longForm_tests in Hf as [-> ->]. split.
    + by intros ->.
    + intros o -> ->. split; [done|].
      unfold GetBool. simpl. by rewrite lookup_insert_eq.
  - apply shortForm_tests in Hf as (-> & -> & ->). rewrite Hlen. simpl. split.
    + by intros ->.
    + intros o -> ->. split; [done|].
      unfold GetBool. simpl. by rewrite lookup_insert_eq.
Qed.

Lemma bare_flag_token_witness :
  step ["prog"; "-a"; "x"] 1 "-a" ∅ exampleRegistry
  = Continue 1 ∅ (set_boolVals <["alpha" := true]> exampleRegistry)
  ∧ GetBool "alpha" (set_boolVals <["alpha" := true]> exampleRegistry) = true.
Proof.
  assert (longForm "-a" = true
          ∨ (shortForm "-a" = true
             ∧ String.length (stripDashes "-a") = 1%nat)) as H
    by (right; split; reflexivity).
  apply (proj2 (bare_flag_token ["prog"; "-a"; "x"] 1 "-a" ∅
                  exampleRegistry H)
           (mkOpt "alpha" "" "a" true false "")); reflexivity.
Defined.

(** ** The required-options message *)

Lemma NoDup_singleton_list {A} (l : list A) a :
  NoDup l → (∀ x, x ∈ l ↔ x = a) → l = [a].
Proof.
  intros Hnd Hin. destruct l as [|x l].
  - assert (a ∈ @nil A) as H by (by apply Hin). by inversion H.
  - assert (x = a) as -> by (apply Hin; by left).
    destruct l as [|y l]; [done|].
    assert (y = a) as -> by (apply Hin; right; by left).
    inversion Hnd as [|? ? Hn _]; subst. exfalso. apply Hn. by left.
Qed.

Lemma msgKey_bestForm s rk o :
  opts s !! rk = Some o →
  (nonempty (short o) || nonempty (long o)) = true →
  msgKey s rk = bestForm o.
Proof.
  intros Ho Hf. unfold msgKey, bestForm. rewrite Ho.
  by destruct (nonempty (short o)), (nonempty (long o)).
Qed.

(** X17: when exactly one required key is missing, the error recorded at
    the end of a scan that went through every token is the
    required-options text followed by the name of that option: both forms
    joined by [or] when it has both, else its long form, else its short
    form. *)
Theorem single_missing_required_message (args : list string) (s s1 : state)
    (foundReqs : gmap string bool) (rk : string) (o : opt) :
  scanCompletes args s foundReqs s1 →
  (∀ k, is_Some (requiredOpts s !! k) ∧ foundReqs !! k = None ↔ k = rk) →
  opts s !! rk = Some o →
  (nonempty (short o) || nonempty (long o)) = true →
  ∃ s', Parse args s = Some s' ∧ parseError s' = ERR_REQ +:+ bestForm o.
Proof.
  intros Hscan Hone Ho Hf.
  assert (∀ f s2, opts s2 = opts s → requiredOpts s2 = requiredOpts s →
                  f = foundReqs →
                  parseError (checkRequired f s2) = ERR_REQ +:+ bestForm o)
    as Hchk.
  { intros f s2 Eo Er ->. unfold checkRequired. rewrite Er.
    assert (requiredOpts s ≠ ∅) as Hne.
    { intros He. destruct (proj2 (Hone rk) eq_refl) as [[b Hb] _].
      by rewrite He, lookup_empty in Hb. }
    apply map_size_non_empty_iff in Hne.
    assert ((0 <? size (requiredOpts s))%nat = true) as ->
      by (apply Nat.ltb_lt; lia).
    simpl. unfold getMissingReqOptsError.
    assert (filter (fun reqName => foundReqs !! reqName = None)
              (map_to_list (requiredOpts s)).*1 = [rk]) as ->.
    { apply NoDup_singleton_list.
      - apply NoDup_filter, NoDup_fst_map_to_list.
      - intros k. rewrite <- Hone, list_elem_of_filter, list_elem_of_fmap.
        split.
        + intros (Hk & [k' b] & -> & Hin).
          apply elem_of_map_to_list in Hin. simpl in *. eauto.
        + intros ([b Hb] & Hk). split; [done|]. exists (k, b).
          split; [done|]. by apply elem_of_map_to_list. }
    simpl. f_equal. unfold msgKey. rewrite Eo. fold (msgKey s rk).
    by apply msgKey_bestForm. }
  unfold Parse. destruct Hscan as [(Hlen & -> & ->) | (Hlen & Hloop)].
  - assert ((length args <? 2)%nat = true) as -> by (by apply Nat.ltb_lt).
    eexists. split; [done|]. by apply Hchk.
  - assert ((length args <? 2)%nat = false) as -> by (apply Nat.ltb_ge; lia).
    rewrite Hloop. eexists. split; [done|].
    apply mainLoop_completed_registry in Hloop as [E1 E2]. by apply Hchk.
Qed.

Lemma single_missing_required_message_witness :
  ∃ s', Parse ["prog"; "x"] (registerOne "opt" false true "") = Some s'
        ∧ parseError s'
          = ERR_REQ +:+ bestForm (mkOpt "opt" "test" "t" false true "").
Proof.
  apply (single_missing_required_message ["prog"; "x"]
           (registerOne "opt" false true "")
           (set_extraArgs (fun extra => app extra ["x"])
              (registerOne "opt" false true ""))
           ∅ "opt" (mkOpt "opt" "test" "t" false true "")).
  - right. split; [simpl; lia | reflexivity].
  - intros k. rewrite registerOne_oneState. simpl. split.
    + intros [[b Hb] _]. apply lookup_singleton_Some in Hb as [<- _]. done.
    + intros ->. split; [|done]. rewrite lookup_singleton_eq. eauto.
  - reflexivity.
  - reflexivity.
Defined.

(** ** [GetUsage] *)

Lemma countNewlines_app a b :
  countNewlines (a +:+ b) = (countNewlines a + countNewlines b)%nat.
Proof.
  induction a as [|c a IH]; [done|].
  change (String c a +:+ b) with (String c (a +:+ b)).
  simpl. rewrite IH. lia.
Qed.

Lemma countNewlines_usageOf useStr o :
  countNewlines (short o) = 0%nat → countNewlines (long o) = 0%nat →
  countNewlines (usage o) = 0%nat →
  countNewlines (usageOf useStr o)
  = (countNewlines useStr + (if nonempty (usage o) then 1 else 0))%nat.
Proof.
  intros Hs Hl Hu. unfold usageOf.
  destruct (nonempty (short o)), (nonempty (long o)), (required o),
    (isBool o), (nonempty (usage o)); simpl negb; cbv iota;
    rewrite ?countNewlines_app, ?Hs, ?Hl, ?Hu; simpl; lia.
Qed.

Lemma countNewlines_foldl (l : list (string * opt)) acc :
  Forall (fun '(_, o) => countNewlines (short o) = 0%nat
                         ∧ countNewlines (long o) = 0%nat
                         ∧ countNewlines (usage o) = 0%nat) l →
  countNewlines (foldl (fun useStr '(_, o) => usageOf useStr o) acc l)
  = (countNewlines acc
     + length (filter (fun '(_, o) => nonempty (usage o) = true) l))%nat.
Proof.
  revert acc. induction l as [|[k o] l IH]; intros acc HF; [simpl; lia|].
  apply Forall_cons in HF as [(Hs & Hl & Hu) HF'].
  cbn [foldl]. rewrite IH, countNewlines_usageOf by done.
  rewrite filter_cons. destruct (decide _) as [Hd|Hd]; simpl in Hd.
  - rewrite Hd. simpl. lia.
  - apply not_true_is_false in Hd. rewrite Hd. lia.
Qed.

(** X18: when no registered short form, long form or usage text holds a
    line end, the text of [GetUsage] has exactly one line end per
    registered option whose usage text is not empty: an option without
    usage text gets no line of its own, and with no option registered the
    text is empty. *)
Theorem GetUsage_lines (s : state) :
  (∀ k o, opts s !! k = Some o →
          countNewlines (short o) = 0%nat ∧ countNewlines (long o) = 0%nat
          ∧ countNewlines (usage o) = 0%nat) →
  countNewlines (GetUsage s)
  = length (filter (fun '(_, o) => nonempty (usage o) = true)
              (map_to_list (opts s)))
  ∧ (opts s = ∅ → GetUsage s = "").
Proof.
  intros H. unfold GetUsage. split.
  - rewrite countNewlines_foldl; [done|].
    apply Forall_forall. intros [k o] Hin.
    apply elem_of_map_to_list in Hin. by eapply H.
  - intros ->. by rewrite map_to_list_empty.
Qed.

Lemma GetUsage_lines_witness :
  countNewlines (GetUsage (registerOne "opt" false true "the usage"))
  = length (filter (fun '(_, o) => nonempty (usage o) = true)
              (map_to_list (opts (registerOne "opt" false true "the usage"))))
  ∧ (opts (registerOne "opt" false true "the usage") = ∅ →
     GetUsage (registerOne "opt" false true "the usage") = "").
Proof.
  apply (GetUsage_lines (registerOne "opt" false true "the usage")).
  intros k o. rewrite registerOne_oneState. simpl.
  intros [<- <-]%lookup_singleton_Some. repeat split.
Defined.

(** ** [getMultiOptKeys] *)

Lemma string_take_drop n s : string_take n s +:+ string_drop n s = s.
Proof.
  revert s. induction n as [|n IH]; intros s; [done|].
  destruct s as [|c s]; [done|].
  change (String c (string_take n s +:+ string_drop n s) = String c s).
  by rewrite IH.
Qed.

Lemma string_drop_length n s :
  String.length (string_drop n s) = (String.length s - n)%nat.
Proof.
  revert s. induction n as [|n IH]; intros s; simpl; [lia|].
  destruct s as [|c s]; simpl; [done | apply IH].
Qed.

Lemma rune_size_pos c r : (1 ≤ rune_size (String c r))%nat.
Proof.
  unfold rune_size. repeat case_match; lia.
Qed.

Lemma explode_fuel_join fuel s :
  (String.length s ≤ fuel)%nat → joinStrings (explode_fuel fuel s) = s.
Proof.
  revert s. induction fuel as [|fuel IH]; intros s Hlen.
  - destruct s; [done | simpl in Hlen; lia].
  - destruct s as [|c r]; [done|].
    cbn [explode_fuel joinStrings foldr]. fold (joinStrings
      (explode_fuel fuel (string_drop (rune_size (String c r)) (String c r)))).
    rewrite IH.
    + apply string_take_drop.
    + rewrite string_drop_length. pose proof (rune_size_pos c r).
      simpl in *. lia.
Qed.

(** X19: when [getMultiOptKeys] gives keys, each of them is a registered
    short form and, put end to end, they are the argument stripped of its
    dashes: no byte is lost or added by the cut into characters.  It gives
    no keys exactly when some character is not a registered short form. *)
Theorem getMultiOptKeys_keys (s : state) (arg : string) :
  (∀ ks, getMultiOptKeys s arg = Some ks →
         joinStrings ks = stripDashes arg
         ∧ Forall (resolves (shortKeys s)) ks)
  ∧ (getMultiOptKeys s arg = None
     ↔ ∃ c, c ∈ explode (stripDashes arg) ∧ shortKeys s !! c = None).
Proof.
  split.
  - intros ks H. apply getMultiOptKeys_Some in H as [-> HF].
    split; [|done]. by apply explode_fuel_join.
  - rewrite getMultiOptKeys_None. split.
    + intros H.
      apply (not_Forall_Exists (fun c => is_Some (shortKeys s !! c))) in H.
      apply Exists_exists in H as (c & Hin & Hc).
      exists c. split; [done|]. by apply eq_None_not_Some.
    + intros (c & Hin & Hc) HF.
      rewrite Forall_forall in HF. destruct (HF c Hin) as [o Ho]. congruence.
Qed.

(** ** More on registration *)

Lemma stripDashes_dashed c r :
  is_dash c = false → is_newline c = false →
  stripDashes (String c r) = String c r
  ∧ stripDashes (String dash (String c r)) = String c r
  ∧ stripDashes (String dash (String dash (String c r))) = String c r.
Proof.
  intros Hd Hn.
  assert (is_dash dash = true) as Hdd by done.
  assert (is_newline dash = false) as Hdn by done.
  unfold stripDashes, multiDash, singleDash.
  rewrite ?Hdd, ?Hdn, ?Hd, ?Hn. cbn [andb negb string_drop].
  repeat split; try done.
  all: destruct r as [|d2 [|c3 r]]; done.
Qed.

(** X20: a form may be given to [RegisterOpt] bare or with its dashes: for
    a long form and a short form that start with neither a dash nor a line
    end, registering [--long] and [-short] (or [-long], or [--short]) gives
    the same result and the same state as registering [long] and
    [short]. *)
Theorem RegisterOpt_dashed_forms (key0 : string) (cl cs : ascii)
    (rl rs : string) (b r : bool) (u : string) (s : state) :
  is_dash cl = false → is_newline cl = false →
  is_dash cs = false → is_newline cs = false →
  RegisterOpt key0 (String dash (String dash (String cl rl)))
    (String dash (String cs rs)) b r u s
  = RegisterOpt key0 (String cl rl) (String cs rs) b r u s
  ∧ RegisterOpt key0 (String dash (String cl rl))
      (String dash (String dash (String cs rs))) b r u s
    = RegisterOpt key0 (String cl rl) (String cs rs) b r u s.
Proof.
  intros Hl1 Hl2 Hs1 Hs2.
  destruct (stripDashes_dashed cl rl Hl1 Hl2) as (L0 & L1 & L2).
  destruct (stripDashes_dashed cs rs Hs1 Hs2) as (S0 & S1 & S2).
  by rewrite !RegisterOpt_eq, L0, L1, L2, S0, S1, S2.
Qed.

Lemma RegisterOpt_dashed_forms_witness :
  RegisterOpt "opt" "--test" "-t" false true "" init
  = RegisterOpt "opt" "test" "t" false true "" init
  ∧ RegisterOpt "opt" "-test" "--t" false true "" init
    = RegisterOpt "opt" "test" "t" false true "" init.
Proof.
  apply (RegisterOpt_dashed_forms "opt" "t" "t" "est" "" false true "" init);
    reflexivity.
Defined.

(** X21: the shape errors of [RegisterOpt], in the order in which they are
    tested, whatever the registry holds.  Boolean and required gives the
    first error; else no form at all gives the no-key error; else a short
    form longer than one byte gives the short-form error; else a long form
    of one byte gives the long-form error.  The forms are taken stripped of
    their dashes, and the state is returned as it was. *)
Theorem RegisterOpt_shape_errors (key0 long0 short0 : string) (b r : bool)
    (u : string) (s : state) :
  (b && r = true →
   RegisterOpt key0 long0 short0 b r u s = (Some (ERR_BOOL_REQ +:+ key0), s))
  ∧ (b && r = false →
     stripDashes short0 = "" → stripDashes long0 = "" →
     RegisterOpt key0 long0 short0 b r u s = (Some (ERR_NO_KEY +:+ key0), s))
  ∧ (b && r = false →
     (1 < String.length (stripDashes short0))%nat →
     RegisterOpt key0 long0 short0 b r u s
     = (Some (ERR_SHORT_TOO_LONG +:+ stripDashes short0), s))
  ∧ (b && r = false →
     (String.length (stripDashes short0) ≤ 1)%nat →
     String.length (stripDashes long0) = 1%nat →
     RegisterOpt key0 long0 short0 b r u s
     = (Some (ERR_LONG_TOO_SHORT +:+ stripDashes long0), s)).
Proof.
  rewrite RegisterOpt_eq. unfold registrationCheck.
  cbn [isBool required short long key usage].
  repeat split.
  - by intros ->.
  - intros -> -> ->. done.
  - intros -> Hlen.
    destruct (stripDashes short0) as [|c sh] eqn:E; [simpl in Hlen; lia|].
    cbn [nonempty negb andb].
    by assert ((1 <? String.length (String c sh))%nat = true) as ->
      by (by apply Nat.ltb_lt).
  - intros -> Hs Hl.
    destruct (stripDashes long0) as [|c lg] eqn:E; [done|].
    assert ((String.length (String c lg) <? 2)%nat = true) as Hlt
      by (apply Nat.ltb_lt; lia).
    assert ((1 <? String.length (stripDashes short0))%nat = false) as Hle
      by (apply Nat.ltb_ge; lia).
    cbn [nonempty negb andb]. rewrite Hle, Hlt, !andb_false_r. done.
Qed.

(** X22: after any program, the short index holds keys of exactly one
    byte and the long index keys of two bytes or more, each entry being a
    registered option filed under its own form. *)
Theorem index_key_lengths (acts : list action) (x : string) (o : opt) :
  (shortKeys (runActions acts init) !! x = Some o →
   String.length x = 1%nat ∧ short o = x
   ∧ opts (runActions acts init) !! key o = Some o)
  ∧ (longKeys (runActions acts init) !! x = Some o →
     (2 ≤ String.length x)%nat ∧ long o = x
     ∧ opts (runActions acts init) !! key o = Some o).
Proof.
  destruct (sound_runActions acts init sound_init) as [[_ Hs Hl _] Hv _].
  split; intros H.
  - apply Hs in H as (Hn & <- & Ho).
    destruct (Hv _ _ Ho) as (_ & _ & Hlen & _). auto.
  - apply Hl in H as (Hn & <- & Ho).
    destruct (Hv _ _ Ho) as (_ & _ & _ & Hlen). auto.
Qed.

(** ** More on scans *)

Lemma mainLoop_same_tail fuel (args args' : list string) i foundReqs s :
  (∀ j, (i ≤ j)%nat → args !! j = args' !! j) →
  mainLoop fuel args i foundReqs s = mainLoop fuel args' i foundReqs s.
Proof.
  revert i foundReqs s. induction fuel as [|fuel IH]; intros i f s Heq.
  - simpl. by rewrite (Heq i).
  - simpl. rewrite <- (Heq i) by lia.
    destruct (args !! i) as [arg|]; [|done].
    rewrite (step_args_next args args') by (apply Heq; lia).
    destruct (step args' i arg f s) as [s1|i1 f1 s1|] eqn:Hs; try done.
    apply IH. intros j Hj. apply Heq.
    apply step_continue_index in Hs. lia.
Qed.

(** X23: the first element of the argument list, the program name, plays
    no part: two lists that differ in it only are scanned alike. *)
Theorem program_name_ignored (prog prog' : string) (rest : list string)
    (s : state) :
  Parse (prog :: rest) s = Parse (prog' :: rest) s.
Proof.
  unfold Parse. simpl length.
  destruct (S (length rest) <? 2)%nat; [done|].
  rewrite (mainLoop_same_tail _ (prog :: rest) (prog' :: rest)); [done|].
  intros [|j] Hj; [lia | done].
Qed.

(** X24: the equals form and the lookahead form of one value agree.  In a
    consistent registry, an equals-form token whose left part resolves to
    a non-boolean option and the bare token of that option followed by the
    same value leave the same state and the same found set; the equals form
    leaves the loop variable in place and the lookahead form moves it past
    the value. *)
Theorem equals_and_lookahead_agree (args args' : list string) (i j : nat)
    (argE argB l v : string) (o : opt) (foundReqs : gmap string bool)
    (s : state) :
  consistent s →
  equalsForm argE = true →
  stripDashes argE = l +:+ String equals v →
  noEquals l = true → noEquals v = true →
  indexFor s argE !! l = Some o →
  bareValueOption s argB o →
  validNext args' j v →
  step args i argE foundReqs s
  = Continue i (markFound o foundReqs) (set_stringVals <[key o := v]> s)
  ∧ step args' j argB foundReqs s
    = Continue (j + 1) (markFound o foundReqs)
        (set_stringVals <[key o := v]> s).
Proof.
  intros Hc He Hstrip Hl Hv Hidx Hb Hnext.
  destruct Hb as [Hbo Hb'] eqn:Hbare. clear Hbare.
  split.
  - rewrite (step_equals_single args i argE l v o) by
      (try done; by destruct Hnext as (_ & ? & _)).
    f_equal. unfold markFoundByKey, markFound.
    assert (opts s !! key o = Some o) as ->; [|done].
    apply (consistent_resolved s l); [done|].
    unfold indexFor in Hidx. destruct (multiDash argE); auto.
  - by apply step_lookahead_valid.
Qed.

Lemma equals_and_lookahead_agree_witness :
  step ["prog"; "--test=v"] 1 "--test=v" ∅ (registerOne "opt" false true "")
  = Continue 1 {["opt" := true]}
      (set_stringVals <["opt" := "v"]> (registerOne "opt" false true ""))
  ∧ step ["prog"; "-t"; "v"] 1 "-t" ∅ (registerOne "opt" false true "")
    = Continue 2 {["opt" := true]}
        (set_stringVals <["opt" := "v"]> (registerOne "opt" false true "")).
Proof.
  assert (consistent (registerOne "opt" false true "")) as Hc.
  { apply (consistent_runOp (OpRegister "opt" "test" "t" false true "") init).
    apply consistent_init. }
  assert (bareValueOption (registerOne "opt" false true "") "-t"
            (mkOpt "opt" "test" "t" false true "")) as Hb.
  { split; [reflexivity|]. right. repeat split. }
  apply (equals_and_lookahead_agree ["prog"; "--test=v"] ["prog"; "-t"; "v"]
           1 1 "--test=v" "-t" "test" "v"
           (mkOpt "opt" "test" "t" false true "") ∅
           (registerOne "opt" false true "") Hc); try reflexivity; try done.
Defined.

(** X25: a scan never unbinds: a key that had a boolean value has one
    afterwards, and a key that had a string value has one afterwards
    (possibly another). *)
Theorem Parse_never_unbinds (args : list string) (s : state) :
  ∃ s', Parse args s = Some s'
        ∧ (∀ k, GetBool k s = true → GetBool k s' = true)
        ∧ (∀ k, is_Some (stringVals s !! k) → is_Some (stringVals s' !! k)).
Proof.
  destruct (Parse_total args s) as [s' Hp]. exists s'. split; [done|].
  apply (Parse_preserves
           (fun s1 => (∀ k, GetBool k s = true → GetBool k s1 = true)
                      ∧ (∀ k, is_Some (stringVals s !! k) →
                              is_Some (stringVals s1 !! k))) args s s');
    try done.
  intros s1 arg s2 [Hb Hs] He. unfold GetBool in *.
  destruct He as [x o v _ _ _ | x o _ _ | bv Hbv | _]; simpl;
    (split; [|]); try done.
  - intros k Hk. destruct (decide (key o = k)) as [<-|Hne].
    + rewrite lookup_insert_eq. eauto.
    + rewrite lookup_insert_ne by done. by apply Hs.
  - intros k Hk. destruct (decide (key o = k)) as [<-|Hne].
    + by rewrite lookup_insert_eq.
    + rewrite lookup_insert_ne by done. by apply Hb.
  - intros k Hk. destruct (Hbv k) as [-> | [-> _]]; [by apply Hb | done].
Qed.
